(** * One-dimensional table interpolation (openmc/interpolate.h)

    A shallow embedding of [src/include/openmc/interpolate.h] and the
    properties of its specification.

    Conventions of the model.
    - A C++ [double] is a real number of [R]: rounding, infinities and NaN
      are outside the model, so every statement below is about the exact
      arithmetic the code denotes.  Statements that divide or take a
      logarithm say so in their hypotheses.
    - A C++ [int] is an integer of [Z] in the range of 32 bits; signed
      overflow and an out-of-range conversion from [double] are undefined
      behaviour.  A [size_t] is an integer modulo [2^64].
    - A [const std::vector<double>&] is a [list R]; reading past its end is
      undefined behaviour, and so is forming an iterator before its
      beginning or more than one past its last element.
    - A call ends in one of three ways, see [outcome]. *)

From Stdlib Require Import String.
From Stdlib Require Import Reals Lra Lia ZArith List Bool.
Import ListNotations.
Local Open Scope R_scope.

(** ** Outcomes of a call *)

(** [Ok a]: the call returns [a].  [Fatal msg]: the call ends in
    [fatal_error(msg)], which does not return.  [Undefined]: the call runs
    into undefined behaviour of C++ (a read outside a vector, a signed
    overflow, a conversion to [int] of a value [int] cannot hold). *)
Inductive outcome (A : Type) : Type :=
| Ok (a : A)
| Fatal (msg : string)
| Undefined.

Arguments Ok {A} a.
Arguments Fatal {A} msg.
Arguments Undefined {A}.

Definition bind {A B : Type} (c : outcome A) (k : A -> outcome B) : outcome B :=
  match c with
  | Ok a => k a
  | Fatal msg => Fatal msg
  | Undefined => Undefined
  end.

Notation "x <- c ;; k" := (bind c (fun x => k))
  (at level 61, c at next level, right associativity).

(** A loop whose body may fail: the body runs once per element of [l],
    from left to right, on the state left by the previous pass. *)
Fixpoint foldM {S B : Type} (body : S -> B -> outcome S) (l : list B) (s : S)
  : outcome S :=
  match l with
  | [] => Ok s
  | b :: rest => s' <- body s b ;; foldM body rest s'
  end.

(** The values [0, 1, ..., n-1] of the counter of [for (int i = 0; i < n; i++)];
    none when [n <= 0]. *)
Definition int_range (n : Z) : list Z := map Z.of_nat (seq 0 (Z.to_nat n)).

(** ** Machine integers and conversions *)

Definition INT_MIN : Z := (- 2 ^ 31)%Z.
Definition INT_MAX : Z := (2 ^ 31 - 1)%Z.

Definition in_int (z : Z) : bool := ((INT_MIN <=? z) && (z <=? INT_MAX))%Z.

(** [a + b] on [int]. *)
Definition int_add (a b : Z) : outcome Z :=
  if in_int (a + b) then Ok (a + b)%Z else Undefined.

Definition SIZE_MAX : Z := (2 ^ 64 - 1)%Z.

(** A value as [size_t]: the conversion of an [int] to [size_t] and the
    subtraction [xs.size() - k] both wrap around modulo [2^64]. *)
Definition size_t (z : Z) : Z := (z mod 2 ^ 64)%Z.

(** The integer nearest to [x] between [x] and zero. *)
Definition trunc (x : R) : Z :=
  if Rle_dec 0 x then Zfloor x else Zceil x.

(** The implicit conversion of a [double] argument to an [int] parameter. *)
Definition double_to_int (x : R) : outcome Z :=
  if in_int (trunc x) then Ok (trunc x) else Undefined.

(** The implicit conversion of an [int] argument to a [double] parameter;
    every [int] is a [double]. *)
Definition int_to_double (i : Z) : R := IZR i.

(** ** Vectors *)

(** [v[i]] *)
Definition vec_at (v : list R) (i : Z) : outcome R :=
  if (i <? 0)%Z then Undefined
  else match nth_error v (Z.to_nat i) with
       | Some r => Ok r
       | None => Undefined
       end.

(** [v.size()] *)
Definition size (v : list R) : Z := Z.of_nat (length v).

(** [v.begin() + idx]: the position [idx], which has to lie between the
    beginning of [v] and one past its last element. *)
Definition iterator_at (v : list R) (idx : Z) : outcome Z :=
  if ((0 <=? idx) && (idx <=? size v))%Z then Ok idx else Undefined.

(** ** The four pointwise kernels (interpolate.h, lines 12-35) *)

Definition interpolate_lin_lin (x0 x1 y0 y1 x : R) : R :=
  y0 + (x - x0) / (x1 - x0) * (y1 - y0).

Definition interpolate_lin_log (x0 x1 y0 y1 x : R) : R :=
  y0 + ln (x / x0) / ln (x1 / x0) * (y1 - y0).

Definition interpolate_log_lin (x0 x1 y0 y1 x : R) : R :=
  y0 * exp ((x - x0) / (x1 - x0) * ln (y1 / y0)).

Definition interpolate_log_log (x0 x1 y0 y1 x : R) : R :=
  let f := ln (x / x0) / ln (x1 / x0) in
  y0 * exp (f * ln (y1 / y0)).

(** ** The Lagrangian evaluator (interpolate.h, lines 37-56) *)

(** One pass of the loop over [j] (lines 45-50) for the window position
    [i]: [nd] holds [numerator] and [denominator]. *)
Definition lagrangian_factor (xs : list R) (idx : Z) (x : R) (i : Z)
    (nd : R * R) (j : Z) : outcome (R * R) :=
  if (i =? j)%Z then Ok nd
  else
    ij <- int_add idx j ;;
    xj <- vec_at xs ij ;;
    ii <- int_add idx i ;;
    xi <- vec_at xs ii ;;
    Ok (fst nd * (x - xj), snd nd * (xi - xj)).

(** One pass of the loop over [i] (lines 42-52): the loop over [j] runs for
    [j = 0 .. order-1], then the quotient is pushed to the back of
    [coeffs]. *)
Definition lagrangian_coeff (xs : list R) (idx : Z) (x : R) (order : Z)
    (coeffs : list R) (i : Z) : outcome (list R) :=
  nd <- foldM (lagrangian_factor xs idx x i) (int_range order) (1, 1) ;;
  Ok (coeffs ++ [fst nd / snd nd]).

(** [std::inner_product(first1, last1, first2, init)] where the first range
    is the vector [coeffs] and [first2] is [ys.begin() + idx]: the state of
    the loop is the position in [ys] and the accumulator.  The iterator
    [first2] is formed before the call, whether or not the range is
    empty. *)
Definition inner_product_step (ys : list R) (s : Z * R) (c : R)
  : outcome (Z * R) :=
  y <- vec_at ys (fst s) ;;
  Ok ((fst s + 1)%Z, snd s + c * y).

Definition inner_product (coeffs ys : list R) (idx : Z) (init : R) : outcome R :=
  first2 <- iterator_at ys idx ;;
  s <- foldM (inner_product_step ys) coeffs (first2, init) ;;
  Ok (snd s).

Definition interpolate_lagrangian (xs ys : list R) (idx : Z) (x : R) (order : Z)
  : outcome R :=
  bound <- int_add order 1 ;;
  coeffs <- foldM (lagrangian_coeff xs idx x order) (int_range bound) [] ;;
  inner_product coeffs ys idx 0.

(** ** The dispatcher (interpolate.h, lines 58-86) *)

(** Modelled from the spec: the enumeration [Interpolation] is declared in
    another header, outside [interpolate.h].  The specification (data model,
    InterpolationLaw) lists six laws; [unlisted code] stands for any other
    value an object of the enumeration's type can hold. *)
Inductive Interpolation : Type :=
| lin_lin
| lin_log
| log_lin
| log_log
| quadratic
| cubic
| unlisted (code : Z).

(** The bracket [(xs[idx], xs[idx+1], ys[idx], ys[idx+1])] of lines 66-72. *)
Definition bracket (xs ys : list R) (idx : Z) : outcome (R * R * R * R) :=
  x0 <- vec_at xs idx ;;
  idx1 <- int_add idx 1 ;;
  x1 <- vec_at xs idx1 ;;
  y0 <- vec_at ys idx ;;
  y1 <- vec_at ys idx1 ;;
  Ok (x0, x1, y0, y1).

(** Line 75: [if (idx == xs.size() - 2 && idx > 0) idx--;] on a table of
    [n] points.  The comparison with [xs.size() - 2] is made in [size_t]. *)
Definition quadratic_start (n idx : Z) : Z :=
  if ((size_t idx =? size_t (n - 2)) && (idx >? 0))%Z then (idx - 1)%Z else idx.

(** Lines 79 and 81: [if (idx > 0) idx--;] and then
    [if (idx == xs.size() - 3) idx--;]. *)
Definition cubic_start (n idx : Z) : Z :=
  let idx1 := if (idx >? 0)%Z then (idx - 1)%Z else idx in
  if (size_t idx1 =? size_t (n - 3))%Z then (idx1 - 1)%Z else idx1.

Section Dispatcher.

(** [lower_bound_index] is defined in [openmc/search.h], outside
    [interpolate.h]: the dispatcher is modelled over any locator, which is
    taken to return a value of [int]. *)
Variable lower_bound_index : list R -> R -> Z.

Definition interpolate (xs ys : list R) (x : R) (i : Interpolation)
  : outcome R :=
  let idx := lower_bound_index xs x in
  match i with
  | lin_lin =>
      b <- bracket xs ys idx ;;
      let '(x0, x1, y0, y1) := b in Ok (interpolate_lin_lin x0 x1 y0 y1 x)
  | log_log =>
      b <- bracket xs ys idx ;;
      let '(x0, x1, y0, y1) := b in Ok (interpolate_log_log x0 x1 y0 y1 x)
  | lin_log =>
      b <- bracket xs ys idx ;;
      let '(x0, x1, y0, y1) := b in Ok (interpolate_lin_log x0 x1 y0 y1 x)
  | log_lin =>
      b <- bracket xs ys idx ;;
      let '(x0, x1, y0, y1) := b in Ok (interpolate_log_lin x0 x1 y0 y1 x)
  | quadratic =>
      let idx := quadratic_start (size xs) idx in
      (* the call passes [x] where the callee has [int idx], and [idx]
         where it has [double x] *)
      arg3 <- double_to_int x ;;
      interpolate_lagrangian xs ys arg3 (int_to_double idx) 2
  | cubic =>
      let idx := cubic_start (size xs) idx in
      arg3 <- double_to_int x ;;
      interpolate_lagrangian xs ys arg3 (int_to_double idx) 3
  | unlisted _ => Fatal "Unsupported interpolation"
  end.

End Dispatcher.

(** Modelled from the spec: [lower_bound_index] (IntervalLocator) is defined
    in [openmc/search.h], outside [interpolate.h].  [prefix_le xs x] is the
    number of leading grid points that are at most [x]. *)
Fixpoint prefix_le (xs : list R) (x : R) : nat :=
  match xs with
  | [] => O
  | a :: rest => if Rle_dec a x then S (prefix_le rest x) else O
  end.

(** Modelled from the spec: the locator the specification describes
    (IntervalLocator), the index [idx] with [xs[idx] <= x] and, when
    possible, [x < xs[idx+1]], clamped so that [0 <= idx <= n-2]: [0] for
    [x] below [xs[0]], [n-2] for [x] at or beyond the last grid point. *)
Definition locate_bracket (xs : list R) (x : R) : Z :=
  Z.max 0 (Z.min (size xs - 2) (Z.of_nat (prefix_le xs x) - 1)).

(** ** Vocabulary of the statements *)

(** The call does not end in a fatal error. *)
Definition not_fatal {A : Type} (c : outcome A) : Prop :=
  forall msg, c <> Fatal msg.

(** The six laws of the enumeration. *)
Definition listed (i : Interpolation) : bool :=
  match i with
  | unlisted _ => false
  | _ => true
  end.

(** The Lagrange formula in the words of the specification (Lagrangian
    Interpolator): the basis coefficient of the window position [i] is the
    product over all [j] in [0..order] with [j <> i] of
    [(x - xs[idx+j]) / (xs[idx+i] - xs[idx+j])], and the value is the sum
    over [i] in [0..order] of [c_i * ys[idx+i]]. *)
Definition spec_basis (xs : list R) (idx : Z) (x : R) (order i : Z) : R :=
  fold_right Rmult 1
    (map (fun j => (x - nth (Z.to_nat (idx + j)) xs 0)
                   / (nth (Z.to_nat (idx + i)) xs 0
                      - nth (Z.to_nat (idx + j)) xs 0))
         (filter (fun j => negb (j =? i)%Z) (int_range (order + 1)))).

Definition spec_lagrangian (xs ys : list R) (idx : Z) (x : R) (order : Z) : R :=
  fold_right Rplus 0
    (map (fun i => spec_basis xs idx x order i * nth (Z.to_nat (idx + i)) ys 0)
         (int_range (order + 1))).

(** The polynomial [a0 + a1 x + a2 x^2 + a3 x^3]; of degree at most two when
    [a3 = 0]. *)
Definition poly (a0 a1 a2 a3 : R) (x : R) : R :=
  a0 + a1 * x + a2 * (x * x) + a3 * (x * x * x).

(** ** The calls as programs over the memory of the caller *)

(** The model above passes the two vectors as values, which hides the
    question of who may write to them.  Here the vectors live in a memory,
    next to the storage of the local vector [coeffs] of the evaluator, and a
    function is a program that takes the memory before the call to its
    outcome and the memory after it. *)
Module Imp.

Record memory : Type := {
  caller_xs : list R;
  caller_ys : list R;
  local_coeffs : list R
}.

(** The memory [m] with [cs] in the storage of [coeffs]. *)
Definition with_coeffs (m : memory) (cs : list R) : memory :=
  {| caller_xs := caller_xs m; caller_ys := caller_ys m; local_coeffs := cs |}.

Definition prog (A : Type) : Type := memory -> outcome (A * memory).

Definition ret {A : Type} (a : A) : prog A := fun m => Ok (a, m).

Definition andthen {A B : Type} (p : prog A) (k : A -> prog B) : prog B :=
  fun m =>
    match p m with
    | Ok (a, m') => k a m'
    | Fatal msg => Fatal msg
    | Undefined => Undefined
    end.

Notation "x <-- p ;; k" := (andthen p (fun x => k))
  (at level 61, p at next level, right associativity).

(** A step that touches no memory. *)
Definition lift {A : Type} (c : outcome A) : prog A :=
  fun m => a <- c ;; Ok (a, m).

(** [xs[i]], [ys[i]], [xs.size()] *)
Definition read_xs (i : Z) : prog R := fun m => lift (vec_at (caller_xs m) i) m.
Definition read_ys (i : Z) : prog R := fun m => lift (vec_at (caller_ys m) i) m.
Definition xs_size : prog Z := fun m => Ok (size (caller_xs m), m).

(** [ys.begin() + idx] *)
Definition ys_iterator_at (idx : Z) : prog Z :=
  fun m => lift (iterator_at (caller_ys m) idx) m.

(** [std::vector<double> coeffs;] *)
Definition coeffs_new : prog unit :=
  fun m => Ok (tt, with_coeffs m []).

(** [coeffs.push_back(c)] *)
Definition coeffs_push_back (c : R) : prog unit :=
  fun m => Ok (tt, with_coeffs m (local_coeffs m ++ [c])).

(** The range [coeffs.begin(), coeffs.end()]. *)
Definition coeffs_range : prog (list R) := fun m => Ok (local_coeffs m, m).

(** [fatal_error(msg)] *)
Definition fatal_error {A : Type} (msg : string) : prog A := fun _ => Fatal msg.

Fixpoint for_each {S B : Type} (body : S -> B -> prog S) (l : list B) (s : S)
  : prog S :=
  match l with
  | [] => ret s
  | b :: rest => s' <-- body s b ;; for_each body rest s'
  end.

Definition lagrangian_factor (idx : Z) (x : R) (i : Z) (nd : R * R) (j : Z)
  : prog (R * R) :=
  if (i =? j)%Z then ret nd
  else
    ij <-- lift (int_add idx j) ;;
    xj <-- read_xs ij ;;
    ii <-- lift (int_add idx i) ;;
    xi <-- read_xs ii ;;
    ret (fst nd * (x - xj), snd nd * (xi - xj)).

Definition lagrangian_coeff (idx : Z) (x : R) (order : Z) (_ : unit) (i : Z)
  : prog unit :=
  nd <-- for_each (lagrangian_factor idx x i) (int_range order) (1, 1) ;;
  coeffs_push_back (fst nd / snd nd).

Definition inner_product_step (s : Z * R) (c : R) : prog (Z * R) :=
  y <-- read_ys (fst s) ;;
  ret ((fst s + 1)%Z, snd s + c * y).

Definition interpolate_lagrangian (idx : Z) (x : R) (order : Z) : prog R :=
  _ <-- coeffs_new ;;
  bound <-- lift (int_add order 1) ;;
  _ <-- for_each (lagrangian_coeff idx x order) (int_range bound) tt ;;
  coeffs <-- coeffs_range ;;
  first2 <-- ys_iterator_at idx ;;
  s <-- for_each inner_product_step coeffs (first2, 0) ;;
  ret (snd s).

Definition bracket (idx : Z) : prog (R * R * R * R) :=
  x0 <-- read_xs idx ;;
  idx1 <-- lift (int_add idx 1) ;;
  x1 <-- read_xs idx1 ;;
  y0 <-- read_ys idx ;;
  y1 <-- read_ys idx1 ;;
  ret (x0, x1, y0, y1).

Section Dispatcher.

Variable lower_bound_index : list R -> R -> Z.

(** The locator reads the range [xs.begin(), xs.end()]. *)
Definition locate (x : R) : prog Z :=
  fun m => Ok (lower_bound_index (caller_xs m) x, m).

Definition interpolate (x : R) (i : Interpolation) : prog R :=
  idx <-- locate x ;;
  match i with
  | lin_lin =>
      b <-- bracket idx ;;
      let '(x0, x1, y0, y1) := b in ret (interpolate_lin_lin x0 x1 y0 y1 x)
  | log_log =>
      b <-- bracket idx ;;
      let '(x0, x1, y0, y1) := b in ret (interpolate_log_log x0 x1 y0 y1 x)
  | lin_log =>
      b <-- bracket idx ;;
      let '(x0, x1, y0, y1) := b in ret (interpolate_lin_log x0 x1 y0 y1 x)
  | log_lin =>
      b <-- bracket idx ;;
      let '(x0, x1, y0, y1) := b in ret (interpolate_log_lin x0 x1 y0 y1 x)
  | quadratic =>
      n <-- xs_size ;;
      let idx := quadratic_start n idx in
      arg3 <-- lift (double_to_int x) ;;
      interpolate_lagrangian arg3 (int_to_double idx) 2
  | cubic =>
      n <-- xs_size ;;
      let idx := cubic_start n idx in
      arg3 <-- lift (double_to_int x) ;;
      interpolate_lagrangian arg3 (int_to_double idx) 3
  | unlisted _ => fatal_error "Unsupported interpolation"
  end.

End Dispatcher.

(** What a call returns, and the memory it leaves: the memory it found
    when it does not return. *)
Definition result {A : Type} (r : outcome (A * memory)) : outcome A :=
  am <- r ;; Ok (fst am).

Definition after {A : Type} (m : memory) (r : outcome (A * memory)) : memory :=
  match r with
  | Ok (_, m') => m'
  | _ => m
  end.

End Imp.

(** The grid is strictly increasing: every point is below its successor. *)
Fixpoint increasing (xs : list R) : Prop :=
  match xs with
  | [] => True
  | a :: rest =>
      match rest with
      | [] => True
      | b :: _ => a < b
      end /\ increasing rest
  end.

(** * Properties *)

(** ** Evaluation of the model on concrete tables *)

(** Unfolds the model and computes on integers and lists; the arithmetic of
    [R] is left as written, for [field] and [lra]. *)
Ltac run_code :=
  cbv -[Rplus Rminus Rmult Rdiv Rinv Ropp IZR Rle_dec Rlt_dec Zfloor Zceil ln exp].

Lemma trunc_nonneg (x : R) (z : Z) :
  0 <= IZR z -> IZR z <= x < IZR z + 1 -> trunc x = z.
Proof.
  intros Hz Hx. unfold trunc. destruct (Rle_dec 0 x) as [_ | Hneg].
  - now apply Zfloor_eq.
  - exfalso; lra.
Qed.

Lemma trunc_IZR (z : Z) : trunc (IZR z) = z.
Proof.
  unfold trunc. destruct (Rle_dec 0 (IZR z)).
  - apply ZfloorZ.
  - unfold Zceil. rewrite <- opp_IZR, ZfloorZ. lia.
Qed.

Lemma prefix_le_cons_le (a : R) (rest : list R) (x : R) :
  a <= x -> prefix_le (a :: rest) x = S (prefix_le rest x).
Proof.
  intros H. simpl. destruct (Rle_dec a x); [reflexivity | contradiction].
Qed.

Lemma prefix_le_cons_gt (a : R) (rest : list R) (x : R) :
  x < a -> prefix_le (a :: rest) x = O.
Proof.
  intros H. simpl. destruct (Rle_dec a x); [lra | reflexivity].
Qed.

Lemma prefix_le_nil (x : R) : prefix_le [] x = O.
Proof. reflexivity. Qed.

(** ** The locator of the specification meets its contract *)

Lemma locate_bracket_range (xs : list R) (x : R) :
  (2 <= size xs)%Z -> (0 <= locate_bracket xs x <= size xs - 2)%Z.
Proof. unfold locate_bracket. lia. Qed.

(** ** Outcomes that are not fatal errors *)

Lemma not_fatal_Ok {A : Type} (a : A) : not_fatal (Ok a).
Proof. intros msg H; discriminate H. Qed.

Lemma not_fatal_Undefined {A : Type} : not_fatal (@Undefined A).
Proof. intros msg H; discriminate H. Qed.

Lemma not_fatal_bind {A B : Type} (c : outcome A) (k : A -> outcome B) :
  not_fatal c -> (forall a, not_fatal (k a)) -> not_fatal (x <- c ;; k x).
Proof.
  intros Hc Hk. destruct c as [a | msg | ]; simpl.
  - apply Hk.
  - exfalso. now apply (Hc msg).
  - apply not_fatal_Undefined.
Qed.

Lemma not_fatal_foldM {S B : Type} (body : S -> B -> outcome S) (l : list B) :
  (forall s b, not_fatal (body s b)) -> forall s, not_fatal (foldM body l s).
Proof.
  intros Hbody. induction l as [| b rest IH]; intros s; simpl.
  - apply not_fatal_Ok.
  - apply not_fatal_bind; [apply Hbody | apply IH].
Qed.

Lemma not_fatal_int_add (a b : Z) : not_fatal (int_add a b).
Proof.
  unfold int_add. destruct (in_int (a + b));
    [apply not_fatal_Ok | apply not_fatal_Undefined].
Qed.

Lemma not_fatal_double_to_int (x : R) : not_fatal (double_to_int x).
Proof.
  unfold double_to_int. destruct (in_int (trunc x));
    [apply not_fatal_Ok | apply not_fatal_Undefined].
Qed.

Lemma not_fatal_vec_at (v : list R) (i : Z) : not_fatal (vec_at v i).
Proof.
  unfold vec_at. destruct (i <? 0)%Z; [apply not_fatal_Undefined |].
  destruct (nth_error v (Z.to_nat i));
    [apply not_fatal_Ok | apply not_fatal_Undefined].
Qed.

Create HintDb nofatal.

#[local] Hint Resolve not_fatal_Ok not_fatal_Undefined not_fatal_int_add
  not_fatal_double_to_int not_fatal_vec_at : nofatal.

Ltac no_fatal :=
  repeat first
    [ apply not_fatal_bind; [ | intro ]
    | apply not_fatal_foldM; intros
    | solve [ auto with nofatal ] ].

Lemma not_fatal_bracket (xs ys : list R) (idx : Z) :
  not_fatal (bracket xs ys idx).
Proof. unfold bracket. no_fatal. Qed.

Lemma not_fatal_interpolate_lagrangian (xs ys : list R) (idx : Z) (x : R)
    (order : Z) :
  not_fatal (interpolate_lagrangian xs ys idx x order).
Proof.
  assert (Hfactor : forall i nd j,
             not_fatal (lagrangian_factor xs idx x i nd j)).
  { intros i nd j. unfold lagrangian_factor. destruct (i =? j)%Z; no_fatal. }
  assert (Hstep : forall s c, not_fatal (inner_product_step ys s c)).
  { intros s c. unfold inner_product_step. no_fatal. }
  unfold interpolate_lagrangian, inner_product, lagrangian_coeff.
  apply not_fatal_bind; [apply not_fatal_int_add | intros bound].
  apply not_fatal_bind.
  - apply not_fatal_foldM. intros coeffs i.
    apply not_fatal_bind; [ | intros nd; apply not_fatal_Ok].
    apply not_fatal_foldM. intros nd j. apply Hfactor.
  - intros coeffs. apply not_fatal_bind.
    + unfold iterator_at. destruct (_ && _)%bool;
        [apply not_fatal_Ok | apply not_fatal_Undefined].
    + intros first2. apply not_fatal_bind; [ | intros s; apply not_fatal_Ok].
      apply not_fatal_foldM. apply Hstep.
Qed.

(** ** The pointwise kernels *)

(** C8.  Each of the four pointwise kernels computes its closed form of the
    specification on the bracket endpoints and the query: LinLin returns
    [y0 + (x-x0)/(x1-x0) * (y1-y0)], LinLog returns
    [y0 + ln(x/x0)/ln(x1/x0) * (y1-y0)], LogLin returns
    [y0 * exp((x-x0)/(x1-x0) * ln(y1/y0))] and LogLog returns
    [y0 * exp(ln(x/x0)/ln(x1/x0) * ln(y1/y0))], for endpoints with
    [x0 <> x1] and the positivity each law asks for. *)
Theorem kernels_closed_form (x0 x1 y0 y1 x : R) :
  x0 <> x1 ->
  interpolate_lin_lin x0 x1 y0 y1 x = y0 + (x - x0) / (x1 - x0) * (y1 - y0)
  /\ (0 < x0 -> 0 < x1 -> 0 < x ->
      interpolate_lin_log x0 x1 y0 y1 x
      = y0 + ln (x / x0) / ln (x1 / x0) * (y1 - y0))
  /\ (0 < y0 -> 0 < y1 ->
      interpolate_log_lin x0 x1 y0 y1 x
      = y0 * exp ((x - x0) / (x1 - x0) * ln (y1 / y0)))
  /\ (0 < x0 -> 0 < x1 -> 0 < x -> 0 < y0 -> 0 < y1 ->
      interpolate_log_log x0 x1 y0 y1 x
      = y0 * exp (ln (x / x0) / ln (x1 / x0) * ln (y1 / y0))).
Proof.
  intros Hx. repeat split; intros; reflexivity.
Qed.

Lemma kernels_closed_form_witness :
  interpolate_lin_lin 1 2 1 4 (3 / 2) = 1 + (3 / 2 - 1) / (2 - 1) * (4 - 1)
  /\ interpolate_lin_log 1 2 1 4 (3 / 2)
     = 1 + ln (3 / 2 / 1) / ln (2 / 1) * (4 - 1)
  /\ interpolate_log_lin 1 2 1 4 (3 / 2)
     = 1 * exp ((3 / 2 - 1) / (2 - 1) * ln (4 / 1))
  /\ interpolate_log_log 1 2 1 4 (3 / 2)
     = 1 * exp (ln (3 / 2 / 1) / ln (2 / 1) * ln (4 / 1)).
Proof.
  destruct (kernels_closed_form 1 2 1 4 (3 / 2)) as (H1 & H2 & H3 & H4);
    [lra | ].
  split; [exact H1 | ].
  split; [apply H2; lra | ].
  split; [apply H3; lra | apply H4; lra].
Defined.

(** Scenario 1 of the specification: [xs=[1,2]], [ys=[1,4]], LinLin at
    [x=1.5] gives [2.5]. *)
Example lin_lin_scenario : interpolate_lin_lin 1 2 1 4 (3 / 2) = 5 / 2.
Proof. unfold interpolate_lin_lin. field. Qed.

(** ** The unsupported law *)

(** C7.  The call ends in a fatal error exactly when the law is none of the
    six laws of the enumeration, and the error is then the
    unsupported-interpolation error: an unlisted law never yields a number,
    a listed law never raises the error. *)
Theorem unsupported_law_is_fatal (lbi : list R -> R -> Z) (xs ys : list R)
    (x : R) (i : Interpolation) (msg : string) :
  interpolate lbi xs ys x i = Fatal msg
  <-> listed i = false /\ msg = "Unsupported interpolation"%string.
Proof.
  split.
  - intros H.
    assert (Hbr : forall k : R * R * R * R -> outcome R,
               (forall b, not_fatal (k b)) ->
               not_fatal (b <- bracket xs ys (lbi xs x) ;; k b)).
    { intros k Hk. apply not_fatal_bind; [apply not_fatal_bracket | exact Hk]. }
    assert (Hlag : forall start order,
               not_fatal (arg3 <- double_to_int x ;;
                          interpolate_lagrangian xs ys arg3 start order)).
    { intros start order. apply not_fatal_bind;
        [apply not_fatal_double_to_int | ].
      intros a. apply not_fatal_interpolate_lagrangian. }
    destruct i; simpl in H |- *;
      try (exfalso; revert H;
           first [ apply Hlag
                 | apply Hbr; intros [[[x0 x1] y0] y1]; apply not_fatal_Ok ]).
    split; [reflexivity | ]. now injection H as <-.
  - intros [Hl ->]. destruct i; try discriminate Hl. reflexivity.
Qed.

(** ** The stencil start computed by the dispatcher *)

Lemma size_t_small (z : Z) : (0 <= z <= SIZE_MAX)%Z -> size_t z = z.
Proof.
  unfold size_t, SIZE_MAX. intros H. apply Z.mod_small. lia.
Qed.

(** C4.  For a table of [n] points with [n] at least 3 (Quadratic) or 4
    (Cubic) and a bracket index [idx] in [[0, n-2]], the stencil start
    computed by the shift logic of the dispatcher lies in
    [[0, n-1-order]]. *)
Theorem stencil_containment (n idx : Z) :
  (n <= SIZE_MAX)%Z ->
  (0 <= idx <= n - 2)%Z ->
  ((3 <= n)%Z -> (0 <= quadratic_start n idx <= n - 1 - 2)%Z)
  /\ ((4 <= n)%Z -> (0 <= cubic_start n idx <= n - 1 - 3)%Z).
Proof.
  intros Hn Hidx. split; intros Hmin.
  - unfold quadratic_start.
    rewrite !size_t_small by lia.
    destruct (Z.eqb_spec idx (n - 2)); rewrite Z.gtb_ltb;
      destruct (Z.ltb_spec 0 idx); simpl; lia.
  - unfold cubic_start. rewrite Z.gtb_ltb.
    destruct (Z.ltb_spec 0 idx); rewrite !size_t_small by lia;
      match goal with |- context [(?a =? ?b)%Z] =>
        destruct (Z.eqb_spec a b) end; lia.
Qed.

Lemma stencil_containment_witness :
  (0 <= quadratic_start 4 2 <= 4 - 1 - 2)%Z
  /\ (0 <= cubic_start 4 2 <= 4 - 1 - 3)%Z.
Proof.
  destruct (stencil_containment 4 2) as [Hq Hc];
    [unfold SIZE_MAX; lia | lia | ].
  split; [apply Hq; lia | apply Hc; lia].
Defined.

(** C10.  On a table of exactly four points the stencil start computed for
    Cubic is [0] whatever the query and whatever bracket index in [[0, 2]]
    the locator returns: the stencil is the whole table. *)
Theorem cubic_start_minimum_table (lbi : list R -> R -> Z) (xs : list R)
    (x : R) :
  length xs = 4%nat ->
  (0 <= lbi xs x <= 2)%Z ->
  cubic_start (size xs) (lbi xs x) = 0%Z.
Proof.
  intros Hlen Hidx. unfold size. rewrite Hlen.
  assert (Hcases : lbi xs x = 0%Z \/ lbi xs x = 1%Z \/ lbi xs x = 2%Z) by lia.
  destruct Hcases as [-> | [-> | ->]]; reflexivity.
Qed.

Lemma cubic_start_minimum_table_witness :
  cubic_start (size [1; 2; 3; 4]) (locate_bracket [1; 2; 3; 4] (7 / 2)) = 0%Z.
Proof.
  apply (cubic_start_minimum_table locate_bracket [1; 2; 3; 4] (7 / 2)).
  - reflexivity.
  - apply locate_bracket_range. unfold size. simpl. lia.
Defined.

(** ** The kernels at the ends of the bracket *)

Lemma kernels_at_left_end (x0 x1 y0 y1 : R) :
  x0 <> x1 ->
  interpolate_lin_lin x0 x1 y0 y1 x0 = y0
  /\ (x0 <> 0 -> interpolate_lin_log x0 x1 y0 y1 x0 = y0)
  /\ interpolate_log_lin x0 x1 y0 y1 x0 = y0
  /\ (x0 <> 0 -> interpolate_log_log x0 x1 y0 y1 x0 = y0).
Proof.
  intros Hx.
  unfold interpolate_lin_lin, interpolate_lin_log, interpolate_log_lin,
    interpolate_log_log.
  assert (Hzero : (x0 - x0) / (x1 - x0) = 0) by (field; lra).
  assert (Hln : x0 <> 0 -> ln (x0 / x0) / ln (x1 / x0) = 0).
  { intros H0. replace (x0 / x0) with 1 by (field; exact H0).
    rewrite ln_1. unfold Rdiv. apply Rmult_0_l. }
  repeat split.
  - rewrite Hzero. ring.
  - intros H0. rewrite (Hln H0). ring.
  - rewrite Hzero, Rmult_0_l, exp_0. ring.
  - intros H0. rewrite (Hln H0), Rmult_0_l, exp_0. ring.
Qed.

Lemma kernels_at_right_end (x0 x1 y0 y1 : R) :
  x0 <> x1 ->
  interpolate_lin_lin x0 x1 y0 y1 x1 = y1
  /\ (0 < x0 -> 0 < x1 -> interpolate_lin_log x0 x1 y0 y1 x1 = y1)
  /\ (0 < y0 -> 0 < y1 -> interpolate_log_lin x0 x1 y0 y1 x1 = y1)
  /\ (0 < x0 -> 0 < x1 -> 0 < y0 -> 0 < y1 ->
      interpolate_log_log x0 x1 y0 y1 x1 = y1).
Proof.
  intros Hx.
  unfold interpolate_lin_lin, interpolate_lin_log, interpolate_log_lin,
    interpolate_log_log.
  assert (Hone : (x1 - x0) / (x1 - x0) = 1) by (field; lra).
  assert (Hln : 0 < x0 -> 0 < x1 -> ln (x1 / x0) / ln (x1 / x0) = 1).
  { intros H0 H1. field. intros Hz.
    assert (Hq : x1 / x0 = 1).
    { apply ln_inv; [apply Rdiv_lt_0_compat; assumption | lra | ].
      now rewrite ln_1. }
    apply Hx. apply (Rmult_eq_compat_r x0) in Hq.
    unfold Rdiv in Hq. rewrite Rmult_assoc, Rinv_l, Rmult_1_r, Rmult_1_l in Hq
      by lra.
    now symmetry. }
  assert (Hexp : 0 < y0 -> 0 < y1 -> y0 * exp (1 * ln (y1 / y0)) = y1).
  { intros H0 H1. rewrite Rmult_1_l, exp_ln
      by (apply Rdiv_lt_0_compat; assumption).
    field. lra. }
  repeat split.
  - rewrite Hone. ring.
  - intros H0 H1. rewrite (Hln H0 H1). ring.
  - intros H0 H1. rewrite Hone. now apply Hexp.
  - intros H0 H1 H2 H3. rewrite (Hln H0 H1). now apply Hexp.
Qed.

(** ** The locator of the specification on the grid *)

Lemma increasing_tail (a : R) (rest : list R) :
  increasing (a :: rest) -> increasing rest.
Proof. intros [_ H]. exact H. Qed.

Lemma increasing_head_below (rest : list R) :
  forall (a : R) (k : nat) (v : R),
    increasing (a :: rest) -> nth_error rest k = Some v -> a < v.
Proof.
  induction rest as [| b rest' IH]; intros a k v Hinc Hk.
  - destruct k; discriminate Hk.
  - destruct Hinc as [Hab Hrest]. destruct k as [| k'].
    + injection Hk as <-. exact Hab.
    + apply Rlt_trans with b; [exact Hab | ].
      apply (IH b k' v Hrest Hk).
Qed.

Lemma prefix_le_grid_point (xs : list R) :
  forall (k : nat) (v : R),
    increasing xs -> nth_error xs k = Some v -> prefix_le xs v = S k.
Proof.
  induction xs as [| a rest IH]; intros k v Hinc Hk.
  - destruct k; discriminate Hk.
  - destruct k as [| k'].
    + injection Hk as <-.
      rewrite prefix_le_cons_le by apply Rle_refl. f_equal.
      destruct rest as [| b rest']; [reflexivity | ].
      apply prefix_le_cons_gt. exact (proj1 Hinc).
    + simpl in Hk.
      rewrite prefix_le_cons_le
        by (left; apply (increasing_head_below rest a k' v Hinc Hk)).
      f_equal. apply IH; [apply (increasing_tail a rest Hinc) | exact Hk].
Qed.

Lemma locate_bracket_grid_point (xs : list R) (k : nat) (v : R) :
  increasing xs -> nth_error xs k = Some v -> (S k < length xs)%nat ->
  locate_bracket xs v = Z.of_nat k.
Proof.
  intros Hinc Hk Hlen. unfold locate_bracket, size.
  rewrite (prefix_le_grid_point xs k v Hinc Hk). lia.
Qed.

(** ** The pointwise laws on the grid *)

Lemma vec_at_nth_error (v : list R) (k : nat) (r : R) :
  nth_error v k = Some r -> vec_at v (Z.of_nat k) = Ok r.
Proof.
  intros H. unfold vec_at.
  destruct (Z.ltb_spec (Z.of_nat k) 0); [lia | ].
  now rewrite Nat2Z.id, H.
Qed.

Lemma bracket_on_grid (xs ys : list R) (k : nat) (x0 x1 y0 y1 : R) :
  nth_error xs k = Some x0 -> nth_error xs (S k) = Some x1 ->
  nth_error ys k = Some y0 -> nth_error ys (S k) = Some y1 ->
  (Z.of_nat k < INT_MAX)%Z ->
  bracket xs ys (Z.of_nat k) = Ok (x0, x1, y0, y1).
Proof.
  intros Hx0 Hx1 Hy0 Hy1 Hk. unfold bracket, int_add.
  assert (Hin : in_int (Z.of_nat k + 1) = true).
  { unfold in_int, INT_MIN, INT_MAX in *. apply andb_true_intro.
    split; apply Z.leb_le; lia. }
  rewrite Hin. replace (Z.of_nat k + 1)%Z with (Z.of_nat (S k)) by lia.
  rewrite (vec_at_nth_error xs k x0 Hx0), (vec_at_nth_error ys k y0 Hy0).
  cbn [bind].
  rewrite (vec_at_nth_error xs (S k) x1 Hx1), (vec_at_nth_error ys (S k) y1 Hy1).
  reflexivity.
Qed.

(** The part of C5 that the code meets: on a strictly increasing grid each
    of the four pointwise laws returns [ys[k]] at [x = xs[k]], for every
    grid index [k] that has a successor, with positive abscissas and
    ordinates where the law takes their logarithm. *)
Lemma pointwise_exact_at_grid_point (xs ys : list R) (k : nat)
    (x0 x1 y0 y1 : R) :
  increasing xs ->
  nth_error xs k = Some x0 -> nth_error xs (S k) = Some x1 ->
  nth_error ys k = Some y0 -> nth_error ys (S k) = Some y1 ->
  (Z.of_nat k < INT_MAX)%Z ->
  interpolate locate_bracket xs ys x0 lin_lin = Ok y0
  /\ (0 < x0 -> interpolate locate_bracket xs ys x0 lin_log = Ok y0)
  /\ (0 < y0 -> 0 < y1 ->
      interpolate locate_bracket xs ys x0 log_lin = Ok y0)
  /\ (0 < x0 -> 0 < y0 -> 0 < y1 ->
      interpolate locate_bracket xs ys x0 log_log = Ok y0).
Proof.
  intros Hinc Hx0 Hx1 Hy0 Hy1 Hk.
  assert (Hlen : (S k < length xs)%nat).
  { apply nth_error_Some. rewrite Hx1. discriminate. }
  assert (Hneq : x0 <> x1).
  { assert (x0 < x1); [ | lra].
    clear - Hinc Hx0 Hx1. revert k Hx0 Hx1.
    induction xs as [| a rest IH]; intros k Hx0 Hx1.
    - destruct k; discriminate Hx0.
    - destruct k as [| k'].
      + injection Hx0 as <-.
        apply (increasing_head_below rest a 0%nat x1 Hinc Hx1).
      + apply (IH (increasing_tail a rest Hinc) k' Hx0 Hx1). }
  destruct (kernels_at_left_end x0 x1 y0 y1 Hneq) as (K1 & K2 & K3 & K4).
  unfold interpolate.
  rewrite (locate_bracket_grid_point xs k x0 Hinc Hx0 Hlen).
  rewrite (bracket_on_grid xs ys k x0 x1 y0 y1 Hx0 Hx1 Hy0 Hy1 Hk). simpl.
  repeat split; intros; f_equal; auto; first [apply K2 | apply K4]; lra.
Qed.

(** ** The evaluator on a stencil of three points *)

(** What the evaluator returns for [order = 2] on a table of three points:
    the coefficients of the first two points are linear in [x], each with
    the one factor of the other; only the last is quadratic. *)
Lemma lagrangian_three_points (a b c p q r x : R) :
  interpolate_lagrangian [a; b; c] [p; q; r] 0 x 2
  = Ok (0 + 1 * (x - b) / (1 * (a - b)) * p
          + 1 * (x - a) / (1 * (b - a)) * q
          + 1 * (x - a) * (x - b) / (1 * (c - a) * (c - b)) * r).
Proof. reflexivity. Qed.

(** ** The call of the Lagrangian evaluator *)

Ltac locate_at :=
  unfold locate_bracket;
  repeat (rewrite prefix_le_cons_le by lra);
  first [ rewrite prefix_le_cons_gt by lra | rewrite prefix_le_nil ].

(** C3.  The evaluator is declared with the stencil start before the query,
    [interpolate_lagrangian(xs, ys, idx, x, order)], and both the Quadratic
    and the Cubic branch of the dispatcher pass the query before the start:
    every such evaluation uses the truncated query as its stencil start and
    evaluates at the computed start index.  The two orders are not
    interchangeable: on the table of squares over [1,2,3,4] at [x = 1.5] the
    call as written differs from the call in the declared order. *)
Theorem lagrangian_arguments_swapped :
  (forall lbi xs ys x,
      interpolate lbi xs ys x quadratic
      = (start <- double_to_int x ;;
         interpolate_lagrangian xs ys start
           (IZR (quadratic_start (size xs) (lbi xs x))) 2))
  /\ (forall lbi xs ys x,
      interpolate lbi xs ys x cubic
      = (start <- double_to_int x ;;
         interpolate_lagrangian xs ys start
           (IZR (cubic_start (size xs) (lbi xs x))) 3))
  /\ (forall x, double_to_int x = if in_int (trunc x) then Ok (trunc x)
                                  else Undefined)
  /\ interpolate locate_bracket [1; 2; 3; 4] [1; 4; 9; 16] (3 / 2) quadratic
     <> interpolate_lagrangian [1; 2; 3; 4] [1; 4; 9; 16]
          (quadratic_start (size [1; 2; 3; 4])
             (locate_bracket [1; 2; 3; 4] (3 / 2)))
          (3 / 2) 2.
Proof.
  split; [reflexivity | ]. split; [reflexivity | ]. split; [reflexivity | ].
  unfold interpolate, double_to_int.
  rewrite (trunc_nonneg (3 / 2) 1) by lra.
  locate_at. run_code.
  intros H. injection H as H. lra.
Qed.

(** ** The Lagrangian evaluator against the formula of the specification *)

(** C2, at [xs = [1,2,3]], [ys = [1,4,9]], [idx = 0], [x = 3], [order = 2]
    (the stencil is the whole table): the evaluator returns [16], the
    formula of the specification gives [9 = ys[2]].  The loop over [j] stops
    at [order - 1], so no coefficient has the factor of the last stencil
    point. *)
Theorem lagrangian_misses_last_factor :
  interpolate_lagrangian [1; 2; 3] [1; 4; 9] 0 3 2 = Ok 16
  /\ spec_lagrangian [1; 2; 3] [1; 4; 9] 0 3 2 = 9.
Proof.
  split.
  - run_code. f_equal. field.
  - run_code. field.
Qed.

(** ** Polynomial tables *)

(** C1, at [xs = [1,2,3,4]], [ys = [1,4,9,16]] (the squares, a polynomial of
    degree two), Quadratic and [x = 1.5]: the call returns [42], the
    polynomial is [2.25] there; and whatever bracket index a locator
    returns for this query, the call does not return [2.25]. *)
Theorem quadratic_not_exact_on_squares :
  [1; 4; 9; 16] = map (poly 0 0 1 0) [1; 2; 3; 4]
  /\ interpolate locate_bracket [1; 2; 3; 4] [1; 4; 9; 16] (3 / 2) quadratic
     = Ok 42
  /\ poly 0 0 1 0 (3 / 2) = 9 / 4
  /\ (forall lbi,
       interpolate lbi [1; 2; 3; 4] [1; 4; 9; 16] (3 / 2) quadratic
       <> Ok (poly 0 0 1 0 (3 / 2))).
Proof.
  split; [ | split; [ | split]].
  - unfold poly. simpl. repeat (f_equal; try lra).
  - unfold interpolate, double_to_int.
    rewrite (trunc_nonneg (3 / 2) 1) by lra.
    locate_at. run_code. f_equal. field.
  - unfold poly. field.
  - intros lbi. unfold interpolate, double_to_int, int_to_double, poly.
    rewrite (trunc_nonneg (3 / 2) 1) by lra.
    generalize (IZR (quadratic_start (size [1; 2; 3; 4])
                       (lbi [1; 2; 3; 4] (3 / 2)))).
    intros t. run_code. intros H. injection H as H.
    match type of H with
    | ?l = ?r =>
        assert (Hl : l = 8 * (t * t) - 35 * t + 42) by field;
        assert (Hr : r = 9 / 4) by field
    end.
    rewrite Hl, Hr in H.
    pose proof (Rle_0_sqr (16 * t - 35)) as Hsq. unfold Rsqr in Hsq. nra.
Qed.

(** ** Grid points *)

(** C5, at [xs = [1,2,3,4,5]], [ys = [1,4,9,16,25]], Quadratic and the
    interior grid point [x = xs[1] = 2]: the call returns [70], not
    [ys[1] = 4]; and whatever bracket index a locator returns for this
    query, the call does not return [4]. *)
Theorem quadratic_not_exact_at_grid_point :
  vec_at [1; 2; 3; 4; 5] 1 = Ok 2
  /\ vec_at [1; 4; 9; 16; 25] 1 = Ok 4
  /\ interpolate locate_bracket [1; 2; 3; 4; 5] [1; 4; 9; 16; 25] 2 quadratic
     = Ok 70
  /\ (forall lbi,
       interpolate lbi [1; 2; 3; 4; 5] [1; 4; 9; 16; 25] 2 quadratic <> Ok 4).
Proof.
  split; [reflexivity | ]. split; [reflexivity | ]. split.
  - unfold interpolate, double_to_int.
    rewrite (trunc_IZR 2).
    locate_at. run_code. f_equal. field.
  - intros lbi. unfold interpolate, double_to_int, int_to_double.
    rewrite (trunc_IZR 2).
    generalize (IZR (quadratic_start (size [1; 2; 3; 4; 5])
                       (lbi [1; 2; 3; 4; 5] 2))).
    intros t. run_code. intros H. injection H as H.
    match type of H with
    | ?l = _ =>
        assert (Hl : l = (25 * (t * t) - 161 * t + 276) / 2) by field
    end.
    rewrite Hl in H.
    pose proof (Rle_0_sqr (50 * t - 161)) as Hsq. unfold Rsqr in Hsq. nra.
Qed.

(** ** The last interval *)

(** C6, at [xs = [1,2,3,4]], [ys = [1,4,9,16]], Quadratic and [x = 3.5]: the
    locator gives the last bracket [2], the shift logic moves it to [1], and
    the call then reads [xs[4]], past the end of the table, whatever the
    bracket index: it has no defined result, where the specification has
    [12.25]. *)
Theorem quadratic_last_interval_out_of_bounds :
  locate_bracket [1; 2; 3; 4] (7 / 2) = 2%Z
  /\ quadratic_start (size [1; 2; 3; 4]) (locate_bracket [1; 2; 3; 4] (7 / 2))
     = 1%Z
  /\ double_to_int (7 / 2) = Ok 3%Z
  /\ vec_at [1; 2; 3; 4] (3 + 1) = Undefined
  /\ (forall lbi,
       interpolate lbi [1; 2; 3; 4] [1; 4; 9; 16] (7 / 2) quadratic
       = Undefined).
Proof.
  assert (Hloc : locate_bracket [1; 2; 3; 4] (7 / 2) = 2%Z).
  { locate_at. reflexivity. }
  assert (Hconv : double_to_int (7 / 2) = Ok 3%Z).
  { unfold double_to_int. rewrite (trunc_nonneg (7 / 2) 3) by lra.
    reflexivity. }
  split; [exact Hloc | ]. split; [rewrite Hloc; reflexivity | ].
  split; [exact Hconv | ]. split; [reflexivity | ].
  intros lbi. unfold interpolate. rewrite Hconv. reflexivity.
Qed.

(** ** The programs over the memory against the functions on values *)

Section Refinement.

Lemma with_coeffs_same (m : Imp.memory) : Imp.with_coeffs m (Imp.local_coeffs m) = m.
Proof. destruct m; reflexivity. Qed.

(** A loop whose passes read the Imp.memory and leave it as it is. *)
Lemma for_each_read_only {S B : Type} (body : S -> B -> Imp.prog S)
    (pure_body : S -> B -> outcome S) (m : Imp.memory) :
  (forall s b, body s b m = (s' <- pure_body s b ;; Ok (s', m))) ->
  forall l s, Imp.for_each body l s m = (s' <- foldM pure_body l s ;; Ok (s', m)).
Proof.
  intros Hbody. induction l as [| b rest IH]; intros s; simpl.
  - reflexivity.
  - unfold Imp.andthen. rewrite Hbody.
    destruct (pure_body s b) as [s' | msg | ]; simpl;
      [apply IH | reflexivity | reflexivity].
Qed.

Lemma lagrangian_factor_refines (idx : Z) (x : R) (i : Z) (nd : R * R)
    (j : Z) (m : Imp.memory) :
  Imp.lagrangian_factor idx x i nd j m
  = (nd' <- lagrangian_factor (Imp.caller_xs m) idx x i nd j ;; Ok (nd', m)).
Proof.
  unfold Imp.lagrangian_factor, lagrangian_factor.
  destruct (i =? j)%Z; [reflexivity | ].
  unfold Imp.andthen, Imp.lift, Imp.read_xs, Imp.ret.
  destruct (int_add idx j) as [ij | | ]; simpl; try reflexivity.
  destruct (vec_at (Imp.caller_xs m) ij) as [xj | | ]; simpl; try reflexivity.
  destruct (int_add idx i) as [ii | | ]; simpl; try reflexivity.
  destruct (vec_at (Imp.caller_xs m) ii) as [xi | | ]; simpl; reflexivity.
Qed.

Lemma lagrangian_coeff_refines (idx : Z) (x : R) (order i : Z) (m : Imp.memory) :
  Imp.lagrangian_coeff idx x order tt i m
  = (cs <- lagrangian_coeff (Imp.caller_xs m) idx x order (Imp.local_coeffs m) i ;;
     Ok (tt, Imp.with_coeffs m cs)).
Proof.
  unfold Imp.lagrangian_coeff, lagrangian_coeff, Imp.andthen.
  rewrite (for_each_read_only _
             (lagrangian_factor (Imp.caller_xs m) idx x i) m)
    by (intros; apply lagrangian_factor_refines).
  destruct (foldM _ _ _) as [nd | | ]; reflexivity.
Qed.

Lemma coeff_loop_refines (idx : Z) (x : R) (order : Z) (l : list Z) :
  forall m,
    Imp.for_each (Imp.lagrangian_coeff idx x order) l tt m
    = (cs <- foldM (lagrangian_coeff (Imp.caller_xs m) idx x order) l
               (Imp.local_coeffs m) ;;
       Ok (tt, Imp.with_coeffs m cs)).
Proof.
  induction l as [| i rest IH]; intros m; simpl.
  - unfold Imp.ret. now rewrite with_coeffs_same.
  - unfold Imp.andthen at 1. rewrite lagrangian_coeff_refines.
    destruct (lagrangian_coeff (Imp.caller_xs m) idx x order (Imp.local_coeffs m) i)
      as [cs | | ]; simpl; try reflexivity.
    rewrite IH. simpl.
    destruct (foldM _ rest cs) as [cs' | | ]; reflexivity.
Qed.

Lemma inner_product_step_refines (s : Z * R) (c : R) (m : Imp.memory) :
  Imp.inner_product_step s c m
  = (s' <- inner_product_step (Imp.caller_ys m) s c ;; Ok (s', m)).
Proof.
  unfold Imp.inner_product_step, inner_product_step, Imp.andthen, Imp.read_ys, Imp.lift,
    Imp.ret.
  destruct (vec_at (Imp.caller_ys m) (fst s)); reflexivity.
Qed.

Lemma interpolate_lagrangian_refines (idx : Z) (x : R) (order : Z)
    (m : Imp.memory) :
  exists cs,
    Imp.interpolate_lagrangian idx x order m
    = (r <- interpolate_lagrangian (Imp.caller_xs m) (Imp.caller_ys m) idx x order ;;
       Ok (r, Imp.with_coeffs m cs)).
Proof.
  unfold Imp.interpolate_lagrangian, interpolate_lagrangian, inner_product.
  unfold Imp.andthen at 1. unfold Imp.coeffs_new.
  unfold Imp.andthen at 1. unfold Imp.lift at 1.
  destruct (int_add order 1) as [bound | | ]; simpl;
    try (exists []; reflexivity).
  unfold Imp.andthen at 1. rewrite coeff_loop_refines. simpl.
  destruct (foldM (lagrangian_coeff (Imp.caller_xs m) idx x order)
              (int_range bound) []) as [cs | | ]; simpl;
    try (exists []; reflexivity).
  exists cs. unfold Imp.andthen, Imp.coeffs_range, Imp.ys_iterator_at, Imp.lift.
  simpl.
  destruct (iterator_at (Imp.caller_ys m) idx) as [first2 | | ]; simpl;
    try reflexivity.
  rewrite (for_each_read_only _ (inner_product_step (Imp.caller_ys m))
             (Imp.with_coeffs (Imp.with_coeffs m []) cs))
    by (intros; rewrite inner_product_step_refines; reflexivity).
  simpl. destruct (foldM _ cs _) as [s | | ]; reflexivity.
Qed.

Lemma bracket_refines (idx : Z) (m : Imp.memory) :
  Imp.bracket idx m
  = (b <- bracket (Imp.caller_xs m) (Imp.caller_ys m) idx ;; Ok (b, m)).
Proof.
  unfold Imp.bracket, bracket, Imp.andthen, Imp.read_xs, Imp.read_ys, Imp.lift, Imp.ret.
  destruct (vec_at (Imp.caller_xs m) idx) as [x0 | | ]; simpl; try reflexivity.
  destruct (int_add idx 1) as [idx1 | | ]; simpl; try reflexivity.
  destruct (vec_at (Imp.caller_xs m) idx1) as [x1 | | ]; simpl; try reflexivity.
  destruct (vec_at (Imp.caller_ys m) idx) as [y0 | | ]; simpl; try reflexivity.
  destruct (vec_at (Imp.caller_ys m) idx1) as [y1 | | ]; simpl; reflexivity.
Qed.

Lemma interpolate_refines (lbi : list R -> R -> Z) (x : R)
    (i : Interpolation) (m : Imp.memory) :
  exists cs,
    Imp.interpolate lbi x i m
    = (r <- interpolate lbi (Imp.caller_xs m) (Imp.caller_ys m) x i ;;
       Ok (r, Imp.with_coeffs m cs)).
Proof.
  assert (Hpoint : forall kernel : R -> R -> R -> R -> R -> R,
    Imp.andthen (Imp.bracket (lbi (Imp.caller_xs m) x))
      (fun b => let '(x0, x1, y0, y1) := b in
                Imp.ret (kernel x0 x1 y0 y1 x)) m
    = (r <- (b <- bracket (Imp.caller_xs m) (Imp.caller_ys m)
                    (lbi (Imp.caller_xs m) x) ;;
             let '(x0, x1, y0, y1) := b in Ok (kernel x0 x1 y0 y1 x)) ;;
       Ok (r, Imp.with_coeffs m (Imp.local_coeffs m)))).
  { intros kernel. unfold Imp.andthen. rewrite bracket_refines.
    rewrite with_coeffs_same.
    destruct (bracket _ _ _) as [[[[x0 x1] y0] y1] | | ]; reflexivity. }
  assert (Hlag : forall start order,
    exists cs,
      Imp.andthen (Imp.lift (double_to_int x))
        (fun arg3 => Imp.interpolate_lagrangian arg3 start order) m
      = (r <- (arg3 <- double_to_int x ;;
               interpolate_lagrangian (Imp.caller_xs m) (Imp.caller_ys m)
                 arg3 start order) ;;
         Ok (r, Imp.with_coeffs m cs))).
  { intros start order. unfold Imp.andthen, Imp.lift.
    destruct (double_to_int x) as [arg3 | | ]; simpl;
      try (exists []; reflexivity).
    apply interpolate_lagrangian_refines. }
  unfold Imp.interpolate, interpolate.
  unfold Imp.andthen at 1. unfold Imp.locate.
  destruct i;
    try (exists (Imp.local_coeffs m); apply Hpoint);
    try (unfold Imp.andthen at 1; unfold Imp.xs_size; apply Hlag).
  exists []. reflexivity.
Qed.

End Refinement.

Lemma interpolate_result (lbi : list R -> R -> Z) (x : R) (i : Interpolation)
    (m : Imp.memory) :
  Imp.result (Imp.interpolate lbi x i m)
  = interpolate lbi (Imp.caller_xs m) (Imp.caller_ys m) x i.
Proof.
  destruct (interpolate_refines lbi x i m) as [cs ->].
  destruct (interpolate lbi _ _ x i); reflexivity.
Qed.

Lemma interpolate_table_kept (lbi : list R -> R -> Z) (x : R)
    (i : Interpolation) (m : Imp.memory) :
  Imp.caller_xs (Imp.after m (Imp.interpolate lbi x i m)) = Imp.caller_xs m
  /\ Imp.caller_ys (Imp.after m (Imp.interpolate lbi x i m)) = Imp.caller_ys m.
Proof.
  destruct (interpolate_refines lbi x i m) as [cs ->].
  destruct (interpolate lbi _ _ x i); split; reflexivity.
Qed.

(** A call that returns leaves the two vectors of the caller as it found
    them and returns the value the function [interpolate] gives on them.
    Nothing is said here of a call whose behaviour is undefined. *)
Lemma defined_call_keeps_table (lbi : list R -> R -> Z) (x : R)
    (i : Interpolation) (m m' : Imp.memory) (v : R) :
  Imp.interpolate lbi x i m = Ok (v, m') ->
  Imp.caller_xs m' = Imp.caller_xs m
  /\ Imp.caller_ys m' = Imp.caller_ys m
  /\ interpolate lbi (Imp.caller_xs m) (Imp.caller_ys m) x i = Ok v.
Proof.
  intros H.
  destruct (interpolate_table_kept lbi x i m) as [Hxs Hys].
  pose proof (interpolate_result lbi x i m) as Hres.
  rewrite H in Hxs, Hys, Hres. simpl in Hxs, Hys, Hres.
  repeat split; [exact Hxs | exact Hys | now symmetry].
Qed.

(** C9, at [xs = [1,2,3,4]], [ys = [1,4,9,16]], Cubic and [x = 2.5], a
    query in the middle of the grid: the call binds the stencil start to
    [(int)2.5 = 2] and the third pass of the inner loop reads [xs[4]], past
    the end of the table, whatever the locator returned and whatever the
    memory held.  The call has no defined result there, so nothing makes
    two calls with these arguments return the same value. *)
Theorem cubic_mid_grid_query_reads_past_table :
  double_to_int (5 / 2) = Ok 2%Z
  /\ vec_at [1; 2; 3; 4] (2 + 2) = Undefined
  /\ (forall lbi,
       interpolate lbi [1; 2; 3; 4] [1; 4; 9; 16] (5 / 2) cubic = Undefined)
  /\ (forall lbi cs,
       Imp.interpolate lbi (5 / 2) cubic
         {| Imp.caller_xs := [1; 2; 3; 4];
            Imp.caller_ys := [1; 4; 9; 16];
            Imp.local_coeffs := cs |}
       = Undefined).
Proof.
  assert (Hconv : double_to_int (5 / 2) = Ok 2%Z).
  { unfold double_to_int. rewrite (trunc_nonneg (5 / 2) 2) by lra.
    reflexivity. }
  assert (Hpure : forall lbi,
             interpolate lbi [1; 2; 3; 4] [1; 4; 9; 16] (5 / 2) cubic
             = Undefined).
  { intros lbi. unfold interpolate. rewrite Hconv. reflexivity. }
  split; [exact Hconv | ]. split; [reflexivity | ]. split; [exact Hpure | ].
  intros lbi cs.
  destruct (interpolate_refines lbi (5 / 2) cubic
              {| Imp.caller_xs := [1; 2; 3; 4];
                 Imp.caller_ys := [1; 4; 9; 16];
                 Imp.local_coeffs := cs |}) as [cs' ->].
  cbn [Imp.caller_xs Imp.caller_ys]. rewrite Hpure. reflexivity.
Qed.

(** * Further properties of the code *)

(** ** The kernels at the two ends of the bracket *)

(** X1.  [interpolate_lin_lin] passes through both points of the bracket. *)
Theorem lin_lin_through_endpoints (x0 x1 y0 y1 : R) :
  x0 <> x1 ->
  interpolate_lin_lin x0 x1 y0 y1 x0 = y0
  /\ interpolate_lin_lin x0 x1 y0 y1 x1 = y1.
Proof.
  intros Hx. split.
  - apply (kernels_at_left_end x0 x1 y0 y1 Hx).
  - apply (kernels_at_right_end x0 x1 y0 y1 Hx).
Qed.

Lemma lin_lin_through_endpoints_witness :
  interpolate_lin_lin 1 2 1 4 1 = 1 /\ interpolate_lin_lin 1 2 1 4 2 = 4.
Proof. apply (lin_lin_through_endpoints 1 2 1 4). lra. Defined.

(** X2.  [interpolate_lin_log] passes through both points of the bracket
    when the abscissas are positive. *)
Theorem lin_log_through_endpoints (x0 x1 y0 y1 : R) :
  x0 <> x1 -> 0 < x0 -> 0 < x1 ->
  interpolate_lin_log x0 x1 y0 y1 x0 = y0
  /\ interpolate_lin_log x0 x1 y0 y1 x1 = y1.
Proof.
  intros Hx H0 H1. split.
  - apply (kernels_at_left_end x0 x1 y0 y1 Hx). lra.
  - apply (kernels_at_right_end x0 x1 y0 y1 Hx); assumption.
Qed.

Lemma lin_log_through_endpoints_witness :
  interpolate_lin_log 1 2 1 4 1 = 1 /\ interpolate_lin_log 1 2 1 4 2 = 4.
Proof. apply (lin_log_through_endpoints 1 2 1 4); lra. Defined.

(** X3.  [interpolate_log_lin] passes through both points of the bracket
    when the ordinates are positive. *)
Theorem log_lin_through_endpoints (x0 x1 y0 y1 : R) :
  x0 <> x1 -> 0 < y0 -> 0 < y1 ->
  interpolate_log_lin x0 x1 y0 y1 x0 = y0
  /\ interpolate_log_lin x0 x1 y0 y1 x1 = y1.
Proof.
  intros Hx H0 H1. split.
  - apply (kernels_at_left_end x0 x1 y0 y1 Hx).
  - apply (kernels_at_right_end x0 x1 y0 y1 Hx); assumption.
Qed.

Lemma log_lin_through_endpoints_witness :
  interpolate_log_lin 1 2 1 4 1 = 1 /\ interpolate_log_lin 1 2 1 4 2 = 4.
Proof. apply (log_lin_through_endpoints 1 2 1 4); lra. Defined.

(** X4.  [interpolate_log_log] passes through both points of the bracket
    when abscissas and ordinates are positive. *)
Theorem log_log_through_endpoints (x0 x1 y0 y1 : R) :
  x0 <> x1 -> 0 < x0 -> 0 < x1 -> 0 < y0 -> 0 < y1 ->
  interpolate_log_log x0 x1 y0 y1 x0 = y0
  /\ interpolate_log_log x0 x1 y0 y1 x1 = y1.
Proof.
  intros Hx H0 H1 H2 H3. split.
  - apply (kernels_at_left_end x0 x1 y0 y1 Hx). lra.
  - apply (kernels_at_right_end x0 x1 y0 y1 Hx); assumption.
Qed.

Lemma log_log_through_endpoints_witness :
  interpolate_log_log 1 2 1 4 1 = 1 /\ interpolate_log_log 1 2 1 4 2 = 4.
Proof. apply (log_log_through_endpoints 1 2 1 4); lra. Defined.

(** ** The family of functions each kernel reproduces *)

Lemma ln_ratio (x x0 : R) : 0 < x -> 0 < x0 -> ln (x / x0) = ln x - ln x0.
Proof.
  intros Hx H0. unfold Rdiv.
  rewrite ln_mult by (try apply Rinv_0_lt_compat; assumption).
  rewrite ln_Rinv by assumption. ring.
Qed.

Lemma exp_diff (a b : R) : exp (a - b) = exp a / exp b.
Proof.
  unfold Rminus, Rdiv. now rewrite exp_plus, exp_Ropp.
Qed.

Lemma ln_differ (x0 x1 : R) :
  0 < x0 -> 0 < x1 -> x0 <> x1 -> ln x1 - ln x0 <> 0.
Proof.
  intros H0 H1 Hx Hz. apply Hx. symmetry.
  apply ln_inv; [assumption | assumption | lra].
Qed.

(** X5.  [interpolate_lin_lin] reproduces every affine function: on a
    bracket taken from [y = a + b x] it returns [a + b x] for every query,
    inside the bracket or not. *)
Theorem lin_lin_exact_on_affine (a b x0 x1 x : R) :
  x0 <> x1 ->
  interpolate_lin_lin x0 x1 (a + b * x0) (a + b * x1) x = a + b * x.
Proof. intros Hx. unfold interpolate_lin_lin. field. lra. Qed.

Lemma lin_lin_exact_on_affine_witness :
  interpolate_lin_lin 1 2 (3 + 5 * 1) (3 + 5 * 2) 7 = 3 + 5 * 7.
Proof. apply (lin_lin_exact_on_affine 3 5 1 2 7). lra. Defined.

(** X6.  [interpolate_lin_log] reproduces every function [y = a + b ln x]
    on positive abscissas. *)
Theorem lin_log_exact_on_logarithms (a b x0 x1 x : R) :
  x0 <> x1 -> 0 < x0 -> 0 < x1 -> 0 < x ->
  interpolate_lin_log x0 x1 (a + b * ln x0) (a + b * ln x1) x = a + b * ln x.
Proof.
  intros Hx H0 H1 H. unfold interpolate_lin_log.
  rewrite !ln_ratio by assumption.
  pose proof (ln_differ x0 x1 H0 H1 Hx) as Hd.
  field. exact Hd.
Qed.

Lemma lin_log_exact_on_logarithms_witness :
  interpolate_lin_log 1 2 (3 + 5 * ln 1) (3 + 5 * ln 2) 7 = 3 + 5 * ln 7.
Proof. apply (lin_log_exact_on_logarithms 3 5 1 2 7); lra. Defined.

(** X7.  [interpolate_log_lin] reproduces every exponential
    [y = c exp(k x)] with [c <> 0]. *)
Theorem log_lin_exact_on_exponentials (c k x0 x1 x : R) :
  x0 <> x1 -> c <> 0 ->
  interpolate_log_lin x0 x1 (c * exp (k * x0)) (c * exp (k * x1)) x
  = c * exp (k * x).
Proof.
  intros Hx Hc. unfold interpolate_log_lin.
  assert (Hq : c * exp (k * x1) / (c * exp (k * x0)) = exp (k * x1 - k * x0)).
  { rewrite exp_diff. field. split; [ | exact Hc].
    apply Rgt_not_eq, exp_pos. }
  rewrite Hq, ln_exp.
  replace ((x - x0) / (x1 - x0) * (k * x1 - k * x0)) with (k * x - k * x0)
    by (field; lra).
  rewrite exp_diff. field. apply Rgt_not_eq, exp_pos.
Qed.

Lemma log_lin_exact_on_exponentials_witness :
  interpolate_log_lin 1 2 (3 * exp (5 * 1)) (3 * exp (5 * 2)) 7
  = 3 * exp (5 * 7).
Proof. apply (log_lin_exact_on_exponentials 3 5 1 2 7); lra. Defined.

(** X8.  [interpolate_log_log] reproduces every power law [y = c x^p] with
    [c <> 0] on positive abscissas. *)
Theorem log_log_exact_on_power_laws (c p x0 x1 x : R) :
  x0 <> x1 -> c <> 0 -> 0 < x0 -> 0 < x1 -> 0 < x ->
  interpolate_log_log x0 x1 (c * Rpower x0 p) (c * Rpower x1 p) x
  = c * Rpower x p.
Proof.
  intros Hx Hc H0 H1 H. unfold interpolate_log_log, Rpower.
  rewrite !ln_ratio by assumption.
  pose proof (ln_differ x0 x1 H0 H1 Hx) as Hd.
  assert (Hq : c * exp (p * ln x1) / (c * exp (p * ln x0))
               = exp (p * ln x1 - p * ln x0)).
  { rewrite exp_diff. field. split; [ | exact Hc].
    apply Rgt_not_eq, exp_pos. }
  rewrite Hq, ln_exp.
  replace ((ln x - ln x0) / (ln x1 - ln x0) * (p * ln x1 - p * ln x0))
    with (p * ln x - p * ln x0) by (field; exact Hd).
  rewrite exp_diff. field. apply Rgt_not_eq, exp_pos.
Qed.

Lemma log_log_exact_on_power_laws_witness :
  interpolate_log_log 1 2 (3 * Rpower 1 5) (3 * Rpower 2 5) 7
  = 3 * Rpower 7 5.
Proof. apply (log_log_exact_on_power_laws 3 5 1 2 7); lra. Defined.

(** ** Order and sign *)

Lemma bracket_fraction (x0 x1 x : R) :
  x0 < x1 -> x0 <= x <= x1 -> 0 <= (x - x0) / (x1 - x0) <= 1.
Proof.
  intros Hx Hin.
  assert (Hpos : 0 < / (x1 - x0)) by (apply Rinv_0_lt_compat; lra).
  unfold Rdiv. split.
  - apply Rmult_le_pos; lra.
  - apply Rmult_le_reg_r with (x1 - x0); [lra | ].
    rewrite Rmult_assoc, Rinv_l by lra. lra.
Qed.

(** X9.  Inside the bracket [interpolate_lin_lin] stays between the two
    ordinates: it never overshoots. *)
Theorem lin_lin_between_ordinates (x0 x1 y0 y1 x : R) :
  x0 < x1 -> x0 <= x <= x1 ->
  Rmin y0 y1 <= interpolate_lin_lin x0 x1 y0 y1 x <= Rmax y0 y1.
Proof.
  intros Hx Hin. unfold interpolate_lin_lin.
  pose proof (bracket_fraction x0 x1 x Hx Hin) as Ht.
  set (t := (x - x0) / (x1 - x0)) in *.
  unfold Rmin, Rmax. destruct (Rle_dec y0 y1); nra.
Qed.

Lemma lin_lin_between_ordinates_witness :
  Rmin 1 4 <= interpolate_lin_lin 1 2 1 4 (3 / 2) <= Rmax 1 4.
Proof. apply (lin_lin_between_ordinates 1 2 1 4 (3 / 2)); lra. Defined.

(** X10.  With increasing abscissas and non-decreasing ordinates
    [interpolate_lin_lin] is non-decreasing in the query, on the whole real
    line. *)
Theorem lin_lin_monotone (x0 x1 y0 y1 x x' : R) :
  x0 < x1 -> y0 <= y1 -> x <= x' ->
  interpolate_lin_lin x0 x1 y0 y1 x <= interpolate_lin_lin x0 x1 y0 y1 x'.
Proof.
  intros Hx Hy Hq. unfold interpolate_lin_lin.
  assert (Hpos : 0 < / (x1 - x0)) by (apply Rinv_0_lt_compat; lra).
  apply Rplus_le_compat_l, Rmult_le_compat_r; [lra | ].
  unfold Rdiv. apply Rmult_le_compat_r; lra.
Qed.

Lemma lin_lin_monotone_witness :
  interpolate_lin_lin 1 2 1 4 (3 / 2) <= interpolate_lin_lin 1 2 1 4 5.
Proof. apply (lin_lin_monotone 1 2 1 4 (3 / 2) 5); lra. Defined.

(** X11.  The two kernels that interpolate the logarithm of the ordinate
    return a positive value for positive ordinates, for every query of
    their domain, inside the bracket or not. *)
Theorem log_kernels_positive (x0 x1 y0 y1 x : R) :
  x0 <> x1 -> 0 < y0 -> 0 < y1 ->
  0 < interpolate_log_lin x0 x1 y0 y1 x
  /\ (0 < x0 -> 0 < x1 -> 0 < x -> 0 < interpolate_log_log x0 x1 y0 y1 x).
Proof.
  intros Hx Hy0 Hy1. unfold interpolate_log_lin, interpolate_log_log.
  split; intros; apply Rmult_lt_0_compat; try exact Hy0; apply exp_pos.
Qed.

Lemma log_kernels_positive_witness :
  0 < interpolate_log_lin 1 2 1 4 (-3)
  /\ 0 < interpolate_log_log 1 2 1 4 7.
Proof.
  split.
  - apply (log_kernels_positive 1 2 1 4 (-3)); lra.
  - apply (log_kernels_positive 1 2 1 4 7); lra.
Defined.

Lemma exp_le (a b : R) : a <= b -> exp a <= exp b.
Proof.
  intros [Hlt | ->]; [left; now apply exp_increasing | apply Rle_refl].
Qed.

Lemma ln_le (a b : R) : 0 < a -> a <= b -> ln a <= ln b.
Proof.
  intros Ha [Hlt | ->]; [left; now apply ln_increasing | apply Rle_refl].
Qed.

(** X12.  With positive increasing abscissas and positive non-decreasing
    ordinates [interpolate_log_log] is non-decreasing in the positive
    query. *)
Theorem log_log_monotone (x0 x1 y0 y1 x x' : R) :
  0 < x0 -> x0 < x1 -> 0 < y0 -> y0 <= y1 -> 0 < x -> x <= x' ->
  interpolate_log_log x0 x1 y0 y1 x <= interpolate_log_log x0 x1 y0 y1 x'.
Proof.
  intros H0 Hx Hy0 Hy Hq Hqq. unfold interpolate_log_log.
  rewrite !ln_ratio by lra.
  assert (Hd : 0 < ln x1 - ln x0).
  { pose proof (ln_increasing x0 x1 H0 Hx). lra. }
  assert (Hn : 0 <= ln y1 - ln y0).
  { pose proof (ln_le y0 y1 Hy0 Hy). lra. }
  assert (Hl : ln x <= ln x') by (apply ln_le; assumption).
  apply Rmult_le_compat_l; [lra | ]. apply exp_le.
  apply Rmult_le_compat_r; [exact Hn | ].
  unfold Rdiv. apply Rmult_le_compat_r.
  - left. now apply Rinv_0_lt_compat.
  - lra.
Qed.

Lemma log_log_monotone_witness :
  interpolate_log_log 1 2 1 4 (3 / 2) <= interpolate_log_log 1 2 1 4 5.
Proof. apply (log_log_monotone 1 2 1 4 (3 / 2) 5); lra. Defined.

(** ** When a read and an addition are defined *)

Lemma bind_Ok_inv {A B : Type} (c : outcome A) (k : A -> outcome B) (b : B) :
  (a <- c ;; k a) = Ok b -> exists a, c = Ok a /\ k a = Ok b.
Proof.
  destruct c as [a | msg | ]; simpl; intros H; try discriminate H.
  exists a. split; [reflexivity | exact H].
Qed.

Lemma in_int_iff (z : Z) : in_int z = true <-> (INT_MIN <= z <= INT_MAX)%Z.
Proof.
  unfold in_int. rewrite andb_true_iff, !Z.leb_le. reflexivity.
Qed.

Lemma int_add_Ok (a b : Z) :
  (INT_MIN <= a + b <= INT_MAX)%Z -> int_add a b = Ok (a + b)%Z.
Proof.
  intros H. unfold int_add. apply in_int_iff in H. now rewrite H.
Qed.

Lemma int_add_Ok_inv (a b c : Z) :
  int_add a b = Ok c -> c = (a + b)%Z /\ (INT_MIN <= a + b <= INT_MAX)%Z.
Proof.
  unfold int_add. destruct (in_int (a + b)) eqn:E; intros H;
    [ | discriminate H].
  injection H as <-. split; [reflexivity | now apply in_int_iff].
Qed.

Lemma vec_at_Ok_range (v : list R) (i : Z) (r : R) :
  vec_at v i = Ok r -> (0 <= i < size v)%Z.
Proof.
  unfold vec_at, size. destruct (Z.ltb_spec i 0); [discriminate | ].
  destruct (nth_error v (Z.to_nat i)) eqn:E; [ | discriminate].
  intros _. assert (Hlt : (Z.to_nat i < length v)%nat).
  { apply nth_error_Some. rewrite E. discriminate. }
  lia.
Qed.

Lemma vec_at_in_range (v : list R) (i : Z) :
  (0 <= i < size v)%Z -> exists r, vec_at v i = Ok r.
Proof.
  unfold vec_at, size. intros H.
  destruct (Z.ltb_spec i 0); [lia | ].
  destruct (nth_error v (Z.to_nat i)) eqn:E; [now exists r | ].
  apply nth_error_None in E. lia.
Qed.

Lemma vec_at_out_of_range (v : list R) (i : Z) :
  ~ (0 <= i < size v)%Z -> vec_at v i = Undefined.
Proof.
  intros H. destruct (vec_at v i) as [r | msg | ] eqn:E.
  - exfalso. apply H. apply (vec_at_Ok_range v i r E).
  - exfalso. apply (not_fatal_vec_at v i msg E).
  - reflexivity.
Qed.

Lemma iterator_at_Ok (v : list R) (idx : Z) :
  (0 <= idx <= size v)%Z -> iterator_at v idx = Ok idx.
Proof.
  intros H. unfold iterator_at.
  destruct (Z.leb_spec 0 idx); [ | lia].
  destruct (Z.leb_spec idx (size v)); [reflexivity | lia].
Qed.

Lemma iterator_at_Ok_inv (v : list R) (idx pos : Z) :
  iterator_at v idx = Ok pos -> pos = idx /\ (0 <= idx <= size v)%Z.
Proof.
  unfold iterator_at.
  destruct (Z.leb_spec 0 idx); destruct (Z.leb_spec idx (size v)); simpl;
    intros Hpos; try discriminate Hpos.
  injection Hpos as <-. lia.
Qed.

Lemma iterator_at_out_of_range (v : list R) (idx : Z) :
  ~ (0 <= idx <= size v)%Z -> iterator_at v idx = Undefined.
Proof.
  intros H. unfold iterator_at.
  destruct (Z.leb_spec 0 idx); destruct (Z.leb_spec idx (size v)); simpl;
    try reflexivity.
  exfalso. apply H. lia.
Qed.

(** ** Loops *)

Lemma foldM_app {S B : Type} (body : S -> B -> outcome S) (l1 l2 : list B) :
  forall s, foldM body (l1 ++ l2) s = (s' <- foldM body l1 s ;; foldM body l2 s').
Proof.
  induction l1 as [| b rest IH]; intros s; simpl.
  - reflexivity.
  - destruct (body s b) as [s' | msg | ]; simpl;
      [apply IH | reflexivity | reflexivity].
Qed.

Lemma foldM_defined {S B : Type} (body : S -> B -> outcome S) (l : list B) :
  (forall s b, In b l -> exists s', body s b = Ok s') ->
  forall s, exists s', foldM body l s = Ok s'.
Proof.
  induction l as [| b rest IH]; intros Hbody s; simpl.
  - now exists s.
  - destruct (Hbody s b (or_introl eq_refl)) as [s1 ->]. simpl.
    apply IH. intros s2 b2 Hin. apply Hbody. now right.
Qed.

Lemma int_range_length (n : Z) : length (int_range n) = Z.to_nat n.
Proof. unfold int_range. now rewrite length_map, length_seq. Qed.

Lemma In_int_range (j n : Z) : In j (int_range n) <-> (0 <= j < n)%Z.
Proof.
  unfold int_range. rewrite in_map_iff. split.
  - intros (k & <- & Hk). apply in_seq in Hk. lia.
  - intros H. exists (Z.to_nat j). split; [lia | ]. apply in_seq. lia.
Qed.

Lemma int_range_succ (n : Z) :
  (0 <= n)%Z -> int_range (n + 1) = int_range n ++ [n].
Proof.
  intros H. unfold int_range.
  replace (Z.to_nat (n + 1)) with (Z.to_nat n + 1)%nat by lia.
  rewrite seq_app, map_app. simpl. now rewrite Z2Nat.id.
Qed.

Lemma int_range_first (n : Z) :
  (1 <= n)%Z -> exists rest, int_range n = 0%Z :: rest.
Proof.
  intros H. unfold int_range.
  destruct (Z.to_nat n) as [| k] eqn:E; [lia | ].
  simpl. eexists. reflexivity.
Qed.

(** ** When the Lagrangian evaluator is defined *)

Lemma lagrangian_factor_defined (xs : list R) (idx : Z) (x : R) (i j : Z)
    (nd : R * R) :
  (0 <= idx)%Z -> (0 <= i)%Z -> (0 <= j)%Z ->
  (idx + i <= INT_MAX)%Z -> (idx + j <= INT_MAX)%Z ->
  (idx + i < size xs)%Z -> (idx + j < size xs)%Z ->
  exists nd', lagrangian_factor xs idx x i nd j = Ok nd'.
Proof.
  intros Hidx Hi Hj Him Hjm Hin Hjn. unfold lagrangian_factor.
  destruct (i =? j)%Z; [now exists nd | ].
  rewrite !int_add_Ok by (unfold INT_MIN, INT_MAX in *; lia). simpl.
  destruct (vec_at_in_range xs (idx + j)) as [xj ->]; [lia | ].
  destruct (vec_at_in_range xs (idx + i)) as [xi ->]; [lia | ].
  simpl. eexists. reflexivity.
Qed.

Lemma lagrangian_coeff_length (xs : list R) (idx : Z) (x : R) (order i : Z)
    (cs cs' : list R) :
  lagrangian_coeff xs idx x order cs i = Ok cs' -> length cs' = S (length cs).
Proof.
  unfold lagrangian_coeff. intros H.
  apply bind_Ok_inv in H. destruct H as (nd & _ & H).
  injection H as <-. rewrite length_app. simpl. lia.
Qed.

Lemma coeff_loop_length (xs : list R) (idx : Z) (x : R) (order : Z)
    (l : list Z) :
  forall cs cs',
    foldM (lagrangian_coeff xs idx x order) l cs = Ok cs' ->
    length cs' = (length cs + length l)%nat.
Proof.
  induction l as [| i rest IH]; intros cs cs' H; simpl in H.
  - injection H as <-. simpl. lia.
  - apply bind_Ok_inv in H. destruct H as (cs1 & H1 & H).
    apply lagrangian_coeff_length in H1. apply IH in H. simpl. lia.
Qed.

Lemma inner_product_loop_defined (ys : list R) (coeffs : list R) :
  forall pos acc,
    (0 <= pos)%Z -> (pos + Z.of_nat (length coeffs) <= size ys)%Z ->
    exists s, foldM (inner_product_step ys) coeffs (pos, acc) = Ok s.
Proof.
  induction coeffs as [| c rest IH]; intros pos acc Hpos Hlen; simpl.
  - eexists. reflexivity.
  - unfold inner_product_step at 1. simpl in Hlen |- *.
    destruct (vec_at_in_range ys pos) as [y ->]; [lia | ]. simpl.
    apply IH; lia.
Qed.

Lemma inner_product_loop_range (ys : list R) (coeffs : list R) :
  forall pos acc s,
    coeffs <> [] ->
    foldM (inner_product_step ys) coeffs (pos, acc) = Ok s ->
    (0 <= pos)%Z /\ (pos + Z.of_nat (length coeffs) <= size ys)%Z.
Proof.
  induction coeffs as [| c rest IH]; intros pos acc s Hne H;
    [now contradiction Hne | ].
  simpl in H. apply bind_Ok_inv in H. destruct H as (s1 & H1 & H).
  unfold inner_product_step in H1. simpl in H1.
  apply bind_Ok_inv in H1. destruct H1 as (y & Hy & H1).
  injection H1 as <-. apply vec_at_Ok_range in Hy.
  destruct rest as [| c' rest'].
  - simpl. lia.
  - apply IH in H; [ | discriminate]. simpl in H |- *. lia.
Qed.

Lemma lagrangian_defined_in_bounds (xs ys : list R) (idx : Z) (x : R)
    (order : Z) :
  (0 <= order < INT_MAX)%Z ->
  (0 <= idx)%Z -> (idx + order <= INT_MAX)%Z ->
  (idx + order < size xs)%Z -> (idx + order < size ys)%Z ->
  exists v, interpolate_lagrangian xs ys idx x order = Ok v.
Proof.
  intros Ho Hidx Hmax Hxs Hys. unfold interpolate_lagrangian.
  rewrite int_add_Ok by (unfold INT_MIN, INT_MAX in *; lia). simpl.
  destruct (foldM_defined (lagrangian_coeff xs idx x order)
              (int_range (order + 1))) with (s := @nil R) as [coeffs Hc].
  { intros cs i Hi. apply In_int_range in Hi. unfold lagrangian_coeff.
    destruct (foldM_defined (lagrangian_factor xs idx x i) (int_range order))
      with (s := (1, 1)) as [nd ->].
    - intros nd j Hj. apply In_int_range in Hj.
      apply lagrangian_factor_defined; lia.
    - simpl. eexists. reflexivity. }
  rewrite Hc. simpl. unfold inner_product.
  rewrite iterator_at_Ok by lia. cbn [bind].
  apply coeff_loop_length in Hc. rewrite int_range_length in Hc. simpl in Hc.
  destruct (inner_product_loop_defined ys coeffs idx 0) as [s ->];
    [lia | lia | ].
  simpl. eexists. reflexivity.
Qed.

Lemma lagrangian_Ok_bounds (xs ys : list R) (idx : Z) (x : R) (order : Z)
    (v : R) :
  (1 <= order)%Z ->
  interpolate_lagrangian xs ys idx x order = Ok v ->
  (0 <= idx)%Z /\ (idx + order <= INT_MAX)%Z
  /\ (idx + order < size xs)%Z /\ (idx + order < size ys)%Z.
Proof.
  intros Ho H. unfold interpolate_lagrangian in H.
  apply bind_Ok_inv in H. destruct H as (bound & Hb & H).
  apply int_add_Ok_inv in Hb. destruct Hb as [-> _].
  apply bind_Ok_inv in H. destruct H as (coeffs & Hc & H).
  (* the inner product reads ys[idx .. idx+order] *)
  assert (Hlen : length coeffs = Z.to_nat (order + 1)).
  { apply coeff_loop_length in Hc. now rewrite int_range_length in Hc. }
  unfold inner_product in H.
  apply bind_Ok_inv in H. destruct H as (first2 & Hfirst & H).
  apply iterator_at_Ok_inv in Hfirst. destruct Hfirst as [-> _].
  apply bind_Ok_inv in H. destruct H as (s & Hs & _).
  apply inner_product_loop_range in Hs;
    [ | intros ->; simpl in Hlen; lia].
  (* the last coefficient reads xs[idx] and xs[idx+order] *)
  rewrite int_range_succ, foldM_app in Hc by lia.
  apply bind_Ok_inv in Hc. destruct Hc as (cs1 & _ & Hlast).
  simpl in Hlast. apply bind_Ok_inv in Hlast.
  destruct Hlast as (cs2 & Hlast & _).
  unfold lagrangian_coeff in Hlast.
  apply bind_Ok_inv in Hlast. destruct Hlast as (nd & Hnd & _).
  destruct (int_range_first order Ho) as [rest Hrange].
  rewrite Hrange in Hnd. simpl in Hnd.
  apply bind_Ok_inv in Hnd. destruct Hnd as (nd1 & Hf & _).
  unfold lagrangian_factor in Hf.
  destruct (Z.eqb_spec order 0); [lia | ].
  apply bind_Ok_inv in Hf. destruct Hf as (ij & Hij & Hf).
  apply bind_Ok_inv in Hf. destruct Hf as (xj & _ & Hf).
  apply bind_Ok_inv in Hf. destruct Hf as (ii & Hii & Hf).
  apply bind_Ok_inv in Hf. destruct Hf as (xi & Hxi & _).
  apply int_add_Ok_inv in Hii. destruct Hii as [-> Hii].
  apply vec_at_Ok_range in Hxi.
  rewrite Hlen in Hs. lia.
Qed.

Lemma lagrangian_undefined_out_of_bounds (xs ys : list R) (idx : Z) (x : R)
    (order : Z) :
  (1 <= order)%Z ->
  ~ ((0 <= idx)%Z /\ (idx + order <= INT_MAX)%Z
     /\ (idx + order < size xs)%Z /\ (idx + order < size ys)%Z) ->
  interpolate_lagrangian xs ys idx x order = Undefined.
Proof.
  intros Ho Hnb.
  destruct (interpolate_lagrangian xs ys idx x order) as [v | msg | ] eqn:E.
  - exfalso. apply Hnb.
    apply (lagrangian_Ok_bounds xs ys idx x order v Ho E).
  - exfalso.
    apply (not_fatal_interpolate_lagrangian xs ys idx x order msg E).
  - reflexivity.
Qed.

(** X13.  For an order of at least one the evaluator returns a value exactly
    when the stencil [idx .. idx+order] lies inside both vectors (and
    [idx+order] is an [int]); in every other case its behaviour is
    undefined: it checks no bound. *)
Theorem lagrangian_defined_iff_stencil_in_bounds (xs ys : list R) (idx : Z)
    (x : R) (order : Z) :
  (1 <= order < INT_MAX)%Z ->
  ((exists v, interpolate_lagrangian xs ys idx x order = Ok v)
   <-> (0 <= idx)%Z /\ (idx + order <= INT_MAX)%Z
       /\ (idx + order < size xs)%Z /\ (idx + order < size ys)%Z)
  /\ (interpolate_lagrangian xs ys idx x order = Undefined
      <-> ~ ((0 <= idx)%Z /\ (idx + order <= INT_MAX)%Z
             /\ (idx + order < size xs)%Z /\ (idx + order < size ys)%Z)).
Proof.
  intros Ho. split.
  - split.
    + intros [v Hv].
      apply (lagrangian_Ok_bounds xs ys idx x order v); [lia | exact Hv].
    + intros (H1 & H2 & H3 & H4).
      apply lagrangian_defined_in_bounds; lia.
  - split.
    + intros Hu (H1 & H2 & H3 & H4).
      destruct (lagrangian_defined_in_bounds xs ys idx x order) as [v Hv];
        try lia.
      rewrite Hu in Hv. discriminate Hv.
    + intros Hnb. apply lagrangian_undefined_out_of_bounds; [lia | exact Hnb].
Qed.

Lemma lagrangian_defined_iff_stencil_in_bounds_witness :
  ((exists v, interpolate_lagrangian [1; 2; 3] [1; 4; 9] 0 5 2 = Ok v)
   <-> (0 <= 0)%Z /\ (0 + 2 <= INT_MAX)%Z
       /\ (0 + 2 < size [1%R; 2%R; 3%R])%Z /\ (0 + 2 < size [1%R; 4%R; 9%R])%Z)
  /\ (interpolate_lagrangian [1; 2; 3] [1; 4; 9] 0 5 2 = Undefined
      <-> ~ ((0 <= 0)%Z /\ (0 + 2 <= INT_MAX)%Z
             /\ (0 + 2 < size [1%R; 2%R; 3%R])%Z /\ (0 + 2 < size [1%R; 4%R; 9%R])%Z)).
Proof.
  apply (lagrangian_defined_iff_stencil_in_bounds [1; 2; 3] [1; 4; 9] 0 5 2).
  unfold INT_MAX. lia.
Defined.

(** ** The evaluator at the orders that need no stencil *)

(** X14.  For a negative order the two loops do not run and neither vector
    is read; the iterator [ys.begin() + idx] is formed all the same: the
    evaluator returns [0.0] when [idx] lies in [[0, ys.size()]], and has
    undefined behaviour otherwise. *)
Theorem lagrangian_negative_order (xs ys : list R) (idx : Z) (x : R)
    (order : Z) :
  (INT_MIN <= order < 0)%Z ->
  ((0 <= idx <= size ys)%Z -> interpolate_lagrangian xs ys idx x order = Ok 0)
  /\ (~ (0 <= idx <= size ys)%Z ->
      interpolate_lagrangian xs ys idx x order = Undefined).
Proof.
  intros Ho.
  assert (Hloop : interpolate_lagrangian xs ys idx x order
                  = inner_product [] ys idx 0).
  { unfold interpolate_lagrangian.
    rewrite int_add_Ok by (unfold INT_MIN, INT_MAX in *; lia). cbn [bind].
    unfold int_range. replace (Z.to_nat (order + 1)) with 0%nat by lia.
    reflexivity. }
  rewrite Hloop. unfold inner_product. split; intros Hidx.
  - rewrite iterator_at_Ok by exact Hidx. reflexivity.
  - rewrite iterator_at_out_of_range by exact Hidx. reflexivity.
Qed.

Lemma lagrangian_negative_order_witness :
  interpolate_lagrangian [] [1; 4; 9] 3 (3 / 2) (-1) = Ok 0
  /\ interpolate_lagrangian [] [1; 4; 9] 7 (3 / 2) (-1) = Undefined.
Proof.
  split.
  - apply (lagrangian_negative_order [] [1; 4; 9] 3 (3 / 2) (-1)).
    + unfold INT_MIN. lia.
    + unfold size. simpl. lia.
  - apply (lagrangian_negative_order [] [1; 4; 9] 7 (3 / 2) (-1)).
    + unfold INT_MIN. lia.
    + unfold size. simpl. lia.
Defined.

(** X15.  For order zero the evaluator is the read [ys[idx]]: it returns
    that ordinate when [idx] is inside [ys], has undefined behaviour
    otherwise, and depends neither on the grid nor on the query. *)
Theorem lagrangian_order_zero (xs ys : list R) (idx : Z) (x : R) :
  interpolate_lagrangian xs ys idx x 0 = vec_at ys idx.
Proof.
  unfold interpolate_lagrangian. change (int_add 0 1) with (Ok 1%Z).
  cbn [bind]. change (int_range 1) with [0%Z].
  cbn [foldM]. unfold lagrangian_coeff. change (int_range 0) with (@nil Z).
  cbn [foldM bind app fst snd].
  unfold inner_product.
  destruct (iterator_at ys idx) as [first2 | msg | ] eqn:Hfirst.
  - apply iterator_at_Ok_inv in Hfirst. destruct Hfirst as [-> _].
    cbn [bind foldM]. unfold inner_product_step.
    cbn [fst snd]. destruct (vec_at ys idx) as [y | msg | ]; cbn [bind snd];
      try reflexivity.
    f_equal. field.
  - unfold iterator_at in Hfirst. destruct (_ && _)%bool; discriminate Hfirst.
  - cbn [bind]. symmetry. apply vec_at_out_of_range. intros Hin.
    rewrite iterator_at_Ok in Hfirst by lia. discriminate Hfirst.
Qed.

(** ** The evaluator at the orders of the dispatcher *)

Lemma lagrangian_factor_same (xs : list R) (idx : Z) (x : R) (i : Z)
    (nd : R * R) :
  lagrangian_factor xs idx x i nd i = Ok nd.
Proof. unfold lagrangian_factor. now rewrite Z.eqb_refl. Qed.

Lemma lagrangian_factor_Ok (xs : list R) (idx : Z) (x : R) (i j : Z)
    (nd : R * R) (xi xj : R) :
  i <> j ->
  (INT_MIN <= idx + i <= INT_MAX)%Z -> (INT_MIN <= idx + j <= INT_MAX)%Z ->
  vec_at xs (idx + i) = Ok xi -> vec_at xs (idx + j) = Ok xj ->
  lagrangian_factor xs idx x i nd j
  = Ok (fst nd * (x - xj), snd nd * (xi - xj)).
Proof.
  intros Hij Hi Hj Hxi Hxj. unfold lagrangian_factor.
  destruct (Z.eqb_spec i j); [contradiction | ].
  rewrite !int_add_Ok by assumption. cbn [bind].
  rewrite Hxj. cbn [bind]. rewrite Hxi. reflexivity.
Qed.

(** One pass of the loop over [j], on a stencil whose reads are known. *)
Ltac factor_pass :=
  first
    [ rewrite lagrangian_factor_same
    | erewrite lagrangian_factor_Ok
        by first [ eassumption | discriminate
                 | unfold INT_MIN, INT_MAX in *; lia ] ];
  cbn [bind fst snd].

(** One pass of [std::inner_product], the read of [ys] being known. *)
Ltac product_pass H :=
  unfold inner_product_step at 1; cbn [fst snd]; rewrite H; cbn [bind fst snd].

Lemma order_two_value (xs ys : list R) (idx : Z) (x a b c p q r : R) :
  (idx + 2 <= INT_MAX)%Z ->
  vec_at xs idx = Ok a -> vec_at xs (idx + 1) = Ok b ->
  vec_at xs (idx + 2) = Ok c ->
  vec_at ys idx = Ok p -> vec_at ys (idx + 1) = Ok q ->
  vec_at ys (idx + 2) = Ok r ->
  interpolate_lagrangian xs ys idx x 2
  = Ok ((x - b) / (a - b) * p
        + (x - a) / (b - a) * q
        + (x - a) * (x - b) / ((c - a) * (c - b)) * r).
Proof.
  intros Hmax Ha Hb Hc Hp Hq Hr.
  pose proof (vec_at_Ok_range xs idx a Ha) as Hidx.
  assert (Ha0 : vec_at xs (idx + 0) = Ok a) by now rewrite Z.add_0_r.
  unfold interpolate_lagrangian. change (int_add 2 1) with (Ok 3%Z).
  cbn [bind]. change (int_range 3) with [0%Z; 1%Z; 2%Z].
  unfold lagrangian_coeff. change (int_range 2) with [0%Z; 1%Z].
  cbn [foldM]. repeat factor_pass. cbn [app].
  unfold inner_product.
  rewrite iterator_at_Ok by (apply vec_at_Ok_range in Hp; lia).
  cbn [bind foldM].
  product_pass Hp. product_pass Hq.
  replace (idx + 1 + 1)%Z with (idx + 2)%Z by lia.
  product_pass Hr. cbn [snd].
  f_equal. rewrite !Rmult_1_l, Rplus_0_l. reflexivity.
Qed.

(** X16.  What the evaluator returns for [order = 2] on a stencil
    [(a,p), (b,q), (c,r)] inside the table: the coefficients of the first
    two points are those of the straight line through them, and only the
    coefficient of the last point is quadratic. *)
Theorem lagrangian_order_two (xs ys : list R) (idx : Z) (x a b c p q r : R) :
  (idx + 2 <= INT_MAX)%Z ->
  vec_at xs idx = Ok a -> vec_at xs (idx + 1) = Ok b ->
  vec_at xs (idx + 2) = Ok c ->
  vec_at ys idx = Ok p -> vec_at ys (idx + 1) = Ok q ->
  vec_at ys (idx + 2) = Ok r ->
  interpolate_lagrangian xs ys idx x 2
  = Ok ((x - b) / (a - b) * p
        + (x - a) / (b - a) * q
        + (x - a) * (x - b) / ((c - a) * (c - b)) * r).
Proof. apply order_two_value. Qed.

Lemma lagrangian_order_two_witness :
  interpolate_lagrangian [1; 2; 3; 4] [1; 4; 9; 16] 1 5 2
  = Ok ((5 - 3) / (2 - 3) * 4
        + (5 - 2) / (3 - 2) * 9
        + (5 - 2) * (5 - 3) / ((4 - 2) * (4 - 3)) * 16).
Proof.
  apply (lagrangian_order_two [1; 2; 3; 4] [1; 4; 9; 16] 1 5 2 3 4 4 9 16);
    first [reflexivity | unfold INT_MAX; lia].
Defined.

Lemma order_three_value (xs ys : list R) (idx : Z)
    (x a b c d p q r s : R) :
  (idx + 3 <= INT_MAX)%Z ->
  vec_at xs idx = Ok a -> vec_at xs (idx + 1) = Ok b ->
  vec_at xs (idx + 2) = Ok c -> vec_at xs (idx + 3) = Ok d ->
  vec_at ys idx = Ok p -> vec_at ys (idx + 1) = Ok q ->
  vec_at ys (idx + 2) = Ok r -> vec_at ys (idx + 3) = Ok s ->
  interpolate_lagrangian xs ys idx x 3
  = Ok ((x - b) * (x - c) / ((a - b) * (a - c)) * p
        + (x - a) * (x - c) / ((b - a) * (b - c)) * q
        + (x - a) * (x - b) / ((c - a) * (c - b)) * r
        + (x - a) * (x - b) * (x - c) / ((d - a) * (d - b) * (d - c)) * s).
Proof.
  intros Hmax Ha Hb Hc Hd Hp Hq Hr Hs.
  pose proof (vec_at_Ok_range xs idx a Ha) as Hidx.
  assert (Ha0 : vec_at xs (idx + 0) = Ok a) by now rewrite Z.add_0_r.
  unfold interpolate_lagrangian. change (int_add 3 1) with (Ok 4%Z).
  cbn [bind]. change (int_range 4) with [0%Z; 1%Z; 2%Z; 3%Z].
  unfold lagrangian_coeff. change (int_range 3) with [0%Z; 1%Z; 2%Z].
  cbn [foldM]. repeat factor_pass. cbn [app].
  unfold inner_product.
  rewrite iterator_at_Ok by (apply vec_at_Ok_range in Hp; lia).
  cbn [bind foldM].
  product_pass Hp. product_pass Hq.
  replace (idx + 1 + 1)%Z with (idx + 2)%Z by lia.
  product_pass Hr.
  replace (idx + 2 + 1)%Z with (idx + 3)%Z by lia.
  product_pass Hs. cbn [snd].
  f_equal. rewrite !Rmult_1_l, Rplus_0_l. reflexivity.
Qed.

(** X17.  What the evaluator returns for [order = 3] on a stencil
    [(a,p), (b,q), (c,r), (d,s)] inside the table: the coefficients of the
    first three points are those of the parabola through them, and only
    the coefficient of the last point is cubic. *)
Theorem lagrangian_order_three (xs ys : list R) (idx : Z)
    (x a b c d p q r s : R) :
  (idx + 3 <= INT_MAX)%Z ->
  vec_at xs idx = Ok a -> vec_at xs (idx + 1) = Ok b ->
  vec_at xs (idx + 2) = Ok c -> vec_at xs (idx + 3) = Ok d ->
  vec_at ys idx = Ok p -> vec_at ys (idx + 1) = Ok q ->
  vec_at ys (idx + 2) = Ok r -> vec_at ys (idx + 3) = Ok s ->
  interpolate_lagrangian xs ys idx x 3
  = Ok ((x - b) * (x - c) / ((a - b) * (a - c)) * p
        + (x - a) * (x - c) / ((b - a) * (b - c)) * q
        + (x - a) * (x - b) / ((c - a) * (c - b)) * r
        + (x - a) * (x - b) * (x - c) / ((d - a) * (d - b) * (d - c)) * s).
Proof. apply order_three_value. Qed.

Lemma lagrangian_order_three_witness :
  interpolate_lagrangian [1; 2; 3; 4] [1; 4; 9; 16] 0 5 3
  = Ok ((5 - 2) * (5 - 3) / ((1 - 2) * (1 - 3)) * 1
        + (5 - 1) * (5 - 3) / ((2 - 1) * (2 - 3)) * 4
        + (5 - 1) * (5 - 2) / ((3 - 1) * (3 - 2)) * 9
        + (5 - 1) * (5 - 2) * (5 - 3) / ((4 - 1) * (4 - 2) * (4 - 3)) * 16).
Proof.
  apply (lagrangian_order_three [1; 2; 3; 4] [1; 4; 9; 16] 0 5 1 2 3 4
           1 4 9 16);
    first [reflexivity | unfold INT_MAX; lia].
Defined.

(** X18.  For [order = 2] the evaluator is [interpolate_lin_lin] on the
    first two points of the stencil, plus the ordinate of the third point
    weighted by [(x-a)(x-b) / ((c-a)(c-b))]. *)
Theorem lagrangian_order_two_is_lin_lin_plus_bump (xs ys : list R) (idx : Z)
    (x a b c p q r : R) :
  (idx + 2 <= INT_MAX)%Z ->
  vec_at xs idx = Ok a -> vec_at xs (idx + 1) = Ok b ->
  vec_at xs (idx + 2) = Ok c ->
  vec_at ys idx = Ok p -> vec_at ys (idx + 1) = Ok q ->
  vec_at ys (idx + 2) = Ok r ->
  a <> b ->
  interpolate_lagrangian xs ys idx x 2
  = Ok (interpolate_lin_lin a b p q x
        + (x - a) * (x - b) / ((c - a) * (c - b)) * r).
Proof.
  intros Hmax Ha Hb Hc Hp Hq Hr Hab.
  rewrite (order_two_value xs ys idx x a b c p q r) by assumption.
  f_equal. unfold interpolate_lin_lin. f_equal. field. lra.
Qed.

Lemma lagrangian_order_two_is_lin_lin_plus_bump_witness :
  interpolate_lagrangian [1; 2; 3; 4] [1; 4; 9; 16] 1 5 2
  = Ok (interpolate_lin_lin 2 3 4 9 5
        + (5 - 2) * (5 - 3) / ((4 - 2) * (4 - 3)) * 16).
Proof.
  apply (lagrangian_order_two_is_lin_lin_plus_bump
           [1; 2; 3; 4] [1; 4; 9; 16] 1 5 2 3 4 4 9 16);
    first [reflexivity | unfold INT_MAX; lia | lra].
Defined.

(** X19.  For [order = 2] and a stencil of distinct abscissas the evaluator
    passes through the first two points of the stencil; at the abscissa of
    the third it returns the ordinate of the third plus the value there of
    the straight line through the first two. *)
Theorem lagrangian_order_two_at_stencil_points (xs ys : list R) (idx : Z)
    (a b c p q r : R) :
  (idx + 2 <= INT_MAX)%Z ->
  vec_at xs idx = Ok a -> vec_at xs (idx + 1) = Ok b ->
  vec_at xs (idx + 2) = Ok c ->
  vec_at ys idx = Ok p -> vec_at ys (idx + 1) = Ok q ->
  vec_at ys (idx + 2) = Ok r ->
  a <> b -> a <> c -> b <> c ->
  interpolate_lagrangian xs ys idx a 2 = Ok p
  /\ interpolate_lagrangian xs ys idx b 2 = Ok q
  /\ interpolate_lagrangian xs ys idx c 2
     = Ok (r + interpolate_lin_lin a b p q c).
Proof.
  intros Hmax Ha Hb Hc Hp Hq Hr Hab Hac Hbc.
  rewrite !(fun x => order_two_value xs ys idx x a b c p q r)
    by assumption.
  unfold interpolate_lin_lin.
  repeat split; f_equal; field; repeat split; lra.
Qed.

Lemma lagrangian_order_two_at_stencil_points_witness :
  interpolate_lagrangian [1; 2; 3; 4] [1; 4; 9; 16] 1 2 2 = Ok 4
  /\ interpolate_lagrangian [1; 2; 3; 4] [1; 4; 9; 16] 1 3 2 = Ok 9
  /\ interpolate_lagrangian [1; 2; 3; 4] [1; 4; 9; 16] 1 4 2
     = Ok (16 + interpolate_lin_lin 2 3 4 9 4).
Proof.
  apply (lagrangian_order_two_at_stencil_points
           [1; 2; 3; 4] [1; 4; 9; 16] 1 2 3 4 4 9 16);
    first [reflexivity | unfold INT_MAX; lia | lra].
Defined.

(** X20.  For [order = 3] and a stencil of distinct abscissas the evaluator
    passes through the first three points of the stencil. *)
Theorem lagrangian_order_three_at_stencil_points (xs ys : list R) (idx : Z)
    (a b c d p q r s : R) :
  (idx + 3 <= INT_MAX)%Z ->
  vec_at xs idx = Ok a -> vec_at xs (idx + 1) = Ok b ->
  vec_at xs (idx + 2) = Ok c -> vec_at xs (idx + 3) = Ok d ->
  vec_at ys idx = Ok p -> vec_at ys (idx + 1) = Ok q ->
  vec_at ys (idx + 2) = Ok r -> vec_at ys (idx + 3) = Ok s ->
  a <> b -> a <> c -> a <> d -> b <> c -> b <> d -> c <> d ->
  interpolate_lagrangian xs ys idx a 3 = Ok p
  /\ interpolate_lagrangian xs ys idx b 3 = Ok q
  /\ interpolate_lagrangian xs ys idx c 3 = Ok r.
Proof.
  intros Hmax Ha Hb Hc Hd Hp Hq Hr Hs Hab Hac Had Hbc Hbd Hcd.
  rewrite !(fun x => order_three_value xs ys idx x a b c d p q r s)
    by assumption.
  repeat split; f_equal; field; repeat split; lra.
Qed.

Lemma lagrangian_order_three_at_stencil_points_witness :
  interpolate_lagrangian [1; 2; 3; 4] [1; 4; 9; 16] 0 1 3 = Ok 1
  /\ interpolate_lagrangian [1; 2; 3; 4] [1; 4; 9; 16] 0 2 3 = Ok 4
  /\ interpolate_lagrangian [1; 2; 3; 4] [1; 4; 9; 16] 0 3 3 = Ok 9.
Proof.
  apply (lagrangian_order_three_at_stencil_points
           [1; 2; 3; 4] [1; 4; 9; 16] 0 1 2 3 4 1 4 9 16);
    first [reflexivity | unfold INT_MAX; lia | lra].
Defined.

(** ** The shift logic of the dispatcher *)

(** X21.  On a table large enough for the law the shift logic is a clamp:
    the start for Quadratic is the bracket index held at or below [n-3],
    the start for Cubic is the index before the bracket held between [0]
    and [n-4]. *)
Theorem stencil_start_is_clamp (n idx : Z) :
  (n <= SIZE_MAX)%Z ->
  (0 <= idx <= n - 2)%Z ->
  ((3 <= n)%Z -> quadratic_start n idx = Z.min idx (n - 3))
  /\ ((4 <= n)%Z -> cubic_start n idx = Z.max 0 (Z.min (idx - 1) (n - 4))).
Proof.
  intros Hn Hidx. split; intros Hmin.
  - unfold quadratic_start.
    rewrite !size_t_small by lia.
    destruct (Z.eqb_spec idx (n - 2)); rewrite Z.gtb_ltb;
      destruct (Z.ltb_spec 0 idx); simpl; lia.
  - unfold cubic_start. rewrite Z.gtb_ltb.
    destruct (Z.ltb_spec 0 idx); rewrite !size_t_small by lia;
      match goal with |- context [(?a =? ?b)%Z] =>
        destruct (Z.eqb_spec a b) end; lia.
Qed.

Lemma stencil_start_is_clamp_witness :
  quadratic_start 5 3 = Z.min 3 (5 - 3)
  /\ cubic_start 5 3 = Z.max 0 (Z.min (3 - 1) (5 - 4)).
Proof.
  destruct (stencil_start_is_clamp 5 3) as [Hq Hc];
    [unfold SIZE_MAX; lia | lia | ].
  split; [apply Hq; lia | apply Hc; lia].
Defined.

(** X22.  The stencil the shift logic selects covers the bracket: both
    [idx] and [idx+1] are among its [order+1] points. *)
Theorem stencil_covers_bracket (n idx : Z) :
  (n <= SIZE_MAX)%Z ->
  (0 <= idx <= n - 2)%Z ->
  ((3 <= n)%Z ->
   (quadratic_start n idx <= idx)%Z
   /\ (idx + 1 <= quadratic_start n idx + 2)%Z)
  /\ ((4 <= n)%Z ->
      (cubic_start n idx <= idx)%Z /\ (idx + 1 <= cubic_start n idx + 3)%Z).
Proof.
  intros Hn Hidx. split; intros Hmin.
  - unfold quadratic_start.
    rewrite !size_t_small by lia.
    destruct (Z.eqb_spec idx (n - 2)); rewrite Z.gtb_ltb;
      destruct (Z.ltb_spec 0 idx); simpl; lia.
  - unfold cubic_start. rewrite Z.gtb_ltb.
    destruct (Z.ltb_spec 0 idx); rewrite !size_t_small by lia;
      match goal with |- context [(?a =? ?b)%Z] =>
        destruct (Z.eqb_spec a b) end; lia.
Qed.

Lemma stencil_covers_bracket_witness :
  ((quadratic_start 5 3 <= 3)%Z /\ (3 + 1 <= quadratic_start 5 3 + 2)%Z)
  /\ ((cubic_start 5 3 <= 3)%Z /\ (3 + 1 <= cubic_start 5 3 + 3)%Z).
Proof.
  destruct (stencil_covers_bracket 5 3) as [Hq Hc];
    [unfold SIZE_MAX; lia | lia | ].
  split; [apply Hq; lia | apply Hc; lia].
Defined.

(** ** When the dispatcher is defined *)

Lemma bracket_defined_in_bounds (xs ys : list R) (idx : Z) :
  (0 <= idx)%Z -> (idx + 1 <= INT_MAX)%Z ->
  (idx + 1 < size xs)%Z -> (idx + 1 < size ys)%Z ->
  exists b, bracket xs ys idx = Ok b.
Proof.
  intros Hidx Hmax Hxs Hys. unfold bracket.
  destruct (vec_at_in_range xs idx) as [x0 ->]; [lia | ]. cbn [bind].
  rewrite int_add_Ok by (unfold INT_MIN, INT_MAX in *; lia). cbn [bind].
  destruct (vec_at_in_range xs (idx + 1)) as [x1 ->]; [lia | ]. cbn [bind].
  destruct (vec_at_in_range ys idx) as [y0 ->]; [lia | ]. cbn [bind].
  destruct (vec_at_in_range ys (idx + 1)) as [y1 ->]; [lia | ]. cbn [bind].
  eexists. reflexivity.
Qed.

Lemma bracket_Ok_bounds (xs ys : list R) (idx : Z) (b : R * R * R * R) :
  bracket xs ys idx = Ok b ->
  (0 <= idx)%Z /\ (idx + 1 <= INT_MAX)%Z
  /\ (idx + 1 < size xs)%Z /\ (idx + 1 < size ys)%Z.
Proof.
  unfold bracket. intros H.
  apply bind_Ok_inv in H. destruct H as (x0 & Hx0 & H).
  apply bind_Ok_inv in H. destruct H as (idx1 & Hidx1 & H).
  apply bind_Ok_inv in H. destruct H as (x1 & Hx1 & H).
  apply bind_Ok_inv in H. destruct H as (y0 & Hy0 & H).
  apply bind_Ok_inv in H. destruct H as (y1 & Hy1 & _).
  apply int_add_Ok_inv in Hidx1. destruct Hidx1 as [-> Hidx1].
  apply vec_at_Ok_range in Hx0, Hx1, Hy1. lia.
Qed.

Lemma pointwise_is_kernel_of_bracket (lbi : list R -> R -> Z) (xs ys : list R)
    (x : R) (law : Interpolation) :
  In law [lin_lin; lin_log; log_lin; log_log] ->
  (forall b, bracket xs ys (lbi xs x) = Ok b ->
             exists v, interpolate lbi xs ys x law = Ok v)
  /\ (forall v, interpolate lbi xs ys x law = Ok v ->
                exists b, bracket xs ys (lbi xs x) = Ok b).
Proof.
  intros Hlaw. simpl in Hlaw.
  destruct Hlaw as [<- | [<- | [<- | [<- | []]]]]; unfold interpolate; split;
    try (intros [[[x0 x1] y0] y1] ->; cbn [bind]; eexists; reflexivity);
    intros v H; apply bind_Ok_inv in H; destruct H as (b & Hb & _);
    now exists b.
Qed.

(** X23.  Under each of the four pointwise laws the dispatcher returns a
    value exactly when the bracket [idx, idx+1] the locator returned lies
    inside both vectors; in every other case its behaviour is undefined:
    the index of the locator is used unchecked. *)
Theorem pointwise_defined_iff_bracket_in_bounds (lbi : list R -> R -> Z)
    (xs ys : list R) (x : R) (law : Interpolation) :
  In law [lin_lin; lin_log; log_lin; log_log] ->
  ((exists v, interpolate lbi xs ys x law = Ok v)
   <-> (0 <= lbi xs x)%Z /\ (lbi xs x + 1 <= INT_MAX)%Z
       /\ (lbi xs x + 1 < size xs)%Z /\ (lbi xs x + 1 < size ys)%Z)
  /\ (interpolate lbi xs ys x law = Undefined
      <-> ~ ((0 <= lbi xs x)%Z /\ (lbi xs x + 1 <= INT_MAX)%Z
             /\ (lbi xs x + 1 < size xs)%Z /\ (lbi xs x + 1 < size ys)%Z)).
Proof.
  intros Hlaw.
  destruct (pointwise_is_kernel_of_bracket lbi xs ys x law Hlaw) as [Hto Hfrom].
  assert (Hiff : (exists v, interpolate lbi xs ys x law = Ok v)
                 <-> (0 <= lbi xs x)%Z /\ (lbi xs x + 1 <= INT_MAX)%Z
                     /\ (lbi xs x + 1 < size xs)%Z
                     /\ (lbi xs x + 1 < size ys)%Z).
  { split.
    - intros [v Hv]. destruct (Hfrom v Hv) as [b Hb].
      apply (bracket_Ok_bounds xs ys (lbi xs x) b Hb).
    - intros (H1 & H2 & H3 & H4).
      destruct (bracket_defined_in_bounds xs ys (lbi xs x) H1 H2 H3 H4)
        as [b Hb].
      apply (Hto b Hb). }
  split; [exact Hiff | ]. split.
  - intros Hu Hb. apply Hiff in Hb. destruct Hb as [v Hv].
    rewrite Hu in Hv. discriminate Hv.
  - intros Hnb.
    destruct (interpolate lbi xs ys x law) as [v | msg | ] eqn:E.
    + exfalso. apply Hnb, Hiff. now exists v.
    + exfalso. simpl in Hlaw.
      assert (Hnf : not_fatal (interpolate lbi xs ys x law)).
      { destruct Hlaw as [<- | [<- | [<- | [<- | []]]]]; unfold interpolate;
          (apply not_fatal_bind; [apply not_fatal_bracket | ]);
          intros [[[x0 x1] y0] y1]; apply not_fatal_Ok. }
      apply (Hnf msg E).
    + reflexivity.
Qed.

Lemma pointwise_defined_iff_bracket_in_bounds_witness :
  ((exists v, interpolate locate_bracket [1; 2] [1; 4] (3 / 2) lin_lin = Ok v)
   <-> (0 <= locate_bracket [1%R; 2%R] (3 / 2)%R)%Z
       /\ (locate_bracket [1%R; 2%R] (3 / 2)%R + 1 <= INT_MAX)%Z
       /\ (locate_bracket [1%R; 2%R] (3 / 2)%R + 1 < size [1%R; 2%R])%Z
       /\ (locate_bracket [1%R; 2%R] (3 / 2)%R + 1 < size [1%R; 4%R])%Z)
  /\ (interpolate locate_bracket [1; 2] [1; 4] (3 / 2) lin_lin = Undefined
      <-> ~ ((0 <= locate_bracket [1%R; 2%R] (3 / 2)%R)%Z
             /\ (locate_bracket [1%R; 2%R] (3 / 2)%R + 1 <= INT_MAX)%Z
             /\ (locate_bracket [1%R; 2%R] (3 / 2)%R + 1 < size [1%R; 2%R])%Z
             /\ (locate_bracket [1%R; 2%R] (3 / 2)%R + 1 < size [1%R; 4%R])%Z)).
Proof.
  apply (pointwise_defined_iff_bracket_in_bounds
           locate_bracket [1; 2] [1; 4] (3 / 2) lin_lin).
  simpl. left. reflexivity.
Defined.

Lemma interpolate_Ok_bounds (lbi : list R -> R -> Z) (xs ys : list R) (x : R)
    (law : Interpolation) (v : R) :
  interpolate lbi xs ys x law = Ok v ->
  match law with
  | quadratic =>
      (0 <= trunc x)%Z /\ (trunc x + 2 <= INT_MAX)%Z
      /\ (trunc x + 2 < size xs)%Z /\ (trunc x + 2 < size ys)%Z
  | cubic =>
      (0 <= trunc x)%Z /\ (trunc x + 3 <= INT_MAX)%Z
      /\ (trunc x + 3 < size xs)%Z /\ (trunc x + 3 < size ys)%Z
  | unlisted _ => False
  | _ =>
      (0 <= lbi xs x)%Z /\ (lbi xs x + 1 <= INT_MAX)%Z
      /\ (lbi xs x + 1 < size xs)%Z /\ (lbi xs x + 1 < size ys)%Z
  end.
Proof.
  assert (Hpoly : forall start order,
             (1 <= order)%Z ->
             (arg3 <- double_to_int x ;;
              interpolate_lagrangian xs ys arg3 start order) = Ok v ->
             (0 <= trunc x)%Z /\ (trunc x + order <= INT_MAX)%Z
             /\ (trunc x + order < size xs)%Z
             /\ (trunc x + order < size ys)%Z).
  { intros start order Ho H.
    apply bind_Ok_inv in H. destruct H as (arg3 & Harg & H).
    unfold double_to_int in Harg.
    destruct (in_int (trunc x)); [ | discriminate Harg].
    injection Harg as <-.
    apply (lagrangian_Ok_bounds xs ys (trunc x) start order v Ho H). }
  unfold interpolate. intros H.
  destruct law;
    try (apply bind_Ok_inv in H; destruct H as (b & Hb & _);
         apply (bracket_Ok_bounds xs ys (lbi xs x) b Hb)).
  - eapply (Hpoly _ 2%Z); [lia | exact H].
  - eapply (Hpoly _ 3%Z); [lia | exact H].
  - discriminate H.
Qed.

Lemma not_fatal_interpolate_listed (lbi : list R -> R -> Z) (xs ys : list R)
    (x : R) (law : Interpolation) :
  listed law = true -> not_fatal (interpolate lbi xs ys x law).
Proof.
  intros Hl. unfold interpolate.
  destruct law; try discriminate Hl;
    first
      [ apply not_fatal_bind;
        [ apply not_fatal_bracket
        | intros [[[x0 x1] y0] y1]; apply not_fatal_Ok ]
      | apply not_fatal_bind;
        [ apply not_fatal_double_to_int
        | intros a; apply not_fatal_interpolate_lagrangian ] ].
Qed.

Lemma interpolate_undefined_when_not_Ok (lbi : list R -> R -> Z)
    (xs ys : list R) (x : R) (law : Interpolation) :
  listed law = true ->
  (forall v, interpolate lbi xs ys x law <> Ok v) ->
  interpolate lbi xs ys x law = Undefined.
Proof.
  intros Hl Hno.
  destruct (interpolate lbi xs ys x law) as [v | msg | ] eqn:E.
  - exfalso. now apply (Hno v).
  - exfalso. apply (not_fatal_interpolate_listed lbi xs ys x law Hl msg E).
  - reflexivity.
Qed.

(** X24.  A table too small for the law gives undefined behaviour, not an
    error: fewer than two points under a pointwise law, fewer than three
    under Quadratic, fewer than four under Cubic, for every locator and
    every query. *)
Theorem undersized_table_is_undefined (lbi : list R -> R -> Z)
    (xs ys : list R) (x : R) :
  ((size xs < 2)%Z ->
   forall law, In law [lin_lin; lin_log; log_lin; log_log] ->
               interpolate lbi xs ys x law = Undefined)
  /\ ((size xs < 3)%Z -> interpolate lbi xs ys x quadratic = Undefined)
  /\ ((size xs < 4)%Z -> interpolate lbi xs ys x cubic = Undefined).
Proof.
  split; [ | split].
  - intros Hsz law Hlaw. simpl in Hlaw.
    apply interpolate_undefined_when_not_Ok.
    + destruct Hlaw as [<- | [<- | [<- | [<- | []]]]]; reflexivity.
    + intros v Hv. apply interpolate_Ok_bounds in Hv.
      destruct Hlaw as [<- | [<- | [<- | [<- | []]]]]; lia.
  - intros Hsz. apply interpolate_undefined_when_not_Ok; [reflexivity | ].
    intros v Hv. apply interpolate_Ok_bounds in Hv. simpl in Hv. lia.
  - intros Hsz. apply interpolate_undefined_when_not_Ok; [reflexivity | ].
    intros v Hv. apply interpolate_Ok_bounds in Hv. simpl in Hv. lia.
Qed.

Lemma undersized_table_is_undefined_witness :
  interpolate locate_bracket [1] [1] 1 lin_lin = Undefined
  /\ interpolate locate_bracket [1; 2] [1; 4] 1 quadratic = Undefined
  /\ interpolate locate_bracket [1; 2; 3] [1; 4; 9] 1 cubic = Undefined.
Proof.
  split; [ | split].
  - apply (undersized_table_is_undefined locate_bracket [1] [1] 1).
    + unfold size. simpl. lia.
    + simpl. left. reflexivity.
  - apply (undersized_table_is_undefined locate_bracket [1; 2] [1; 4] 1).
    unfold size. simpl. lia.
  - apply (undersized_table_is_undefined locate_bracket [1; 2; 3] [1; 4; 9] 1).
    unfold size. simpl. lia.
Defined.

(** X25.  Under Quadratic and Cubic the dispatcher returns a value exactly
    when the integer part of the query, taken as a stencil start, puts the
    stencil inside both vectors: the grid values, the locator and the
    bracket it returned play no part in whether the call is defined. *)
Theorem polynomial_laws_defined_iff_query_indexes_table
    (lbi : list R -> R -> Z) (xs ys : list R) (x : R) :
  ((exists v, interpolate lbi xs ys x quadratic = Ok v)
   <-> (0 <= trunc x)%Z /\ (trunc x + 2 <= INT_MAX)%Z
       /\ (trunc x + 2 < size xs)%Z /\ (trunc x + 2 < size ys)%Z)
  /\ ((exists v, interpolate lbi xs ys x cubic = Ok v)
      <-> (0 <= trunc x)%Z /\ (trunc x + 3 <= INT_MAX)%Z
          /\ (trunc x + 3 < size xs)%Z /\ (trunc x + 3 < size ys)%Z).
Proof.
  assert (Hback : forall start order,
             (0 <= order < INT_MAX)%Z ->
             (0 <= trunc x)%Z -> (trunc x + order <= INT_MAX)%Z ->
             (trunc x + order < size xs)%Z ->
             (trunc x + order < size ys)%Z ->
             exists v,
               (arg3 <- double_to_int x ;;
                interpolate_lagrangian xs ys arg3 start order) = Ok v).
  { intros start order Ho H1 H2 H3 H4. unfold double_to_int.
    assert (Hin : in_int (trunc x) = true).
    { apply in_int_iff. unfold INT_MIN, INT_MAX in *. lia. }
    rewrite Hin. cbn [bind].
    apply lagrangian_defined_in_bounds; assumption. }
  split; split.
  - intros [v Hv]. apply (interpolate_Ok_bounds lbi xs ys x quadratic v Hv).
  - intros (H1 & H2 & H3 & H4). unfold interpolate.
    apply Hback; try assumption. unfold INT_MAX. lia.
  - intros [v Hv]. apply (interpolate_Ok_bounds lbi xs ys x cubic v Hv).
  - intros (H1 & H2 & H3 & H4). unfold interpolate.
    apply Hback; try assumption. unfold INT_MAX. lia.
Qed.

(** ** The pointwise laws at the ends of the bracket *)

Lemma bracket_of_reads (xs ys : list R) (idx : Z) (x0 x1 y0 y1 : R) :
  (idx + 1 <= INT_MAX)%Z ->
  vec_at xs idx = Ok x0 -> vec_at xs (idx + 1) = Ok x1 ->
  vec_at ys idx = Ok y0 -> vec_at ys (idx + 1) = Ok y1 ->
  bracket xs ys idx = Ok (x0, x1, y0, y1).
Proof.
  intros Hmax Hx0 Hx1 Hy0 Hy1.
  pose proof (vec_at_Ok_range xs idx x0 Hx0) as Hidx.
  unfold bracket. rewrite Hx0. cbn [bind].
  rewrite int_add_Ok by (unfold INT_MIN, INT_MAX in *; lia). cbn [bind].
  rewrite Hx1. cbn [bind]. rewrite Hy0. cbn [bind]. rewrite Hy1.
  reflexivity.
Qed.

(** X26.  Under each pointwise law the dispatcher returns the ordinate of a
    grid point when the query is the abscissa of that point, whether the
    locator returned the bracket that starts at the point or the bracket
    that ends at it: the result at a grid point does not depend on the
    convention of the locator. *)
Theorem pointwise_exact_at_bracket_ends (lbi : list R -> R -> Z)
    (xs ys : list R) (x x0 x1 y0 y1 : R) :
  (lbi xs x + 1 <= INT_MAX)%Z ->
  vec_at xs (lbi xs x) = Ok x0 -> vec_at xs (lbi xs x + 1) = Ok x1 ->
  vec_at ys (lbi xs x) = Ok y0 -> vec_at ys (lbi xs x + 1) = Ok y1 ->
  x0 <> x1 ->
  (x = x0 ->
   interpolate lbi xs ys x lin_lin = Ok y0
   /\ (0 < x0 -> 0 < x1 -> interpolate lbi xs ys x lin_log = Ok y0)
   /\ (0 < y0 -> 0 < y1 -> interpolate lbi xs ys x log_lin = Ok y0)
   /\ (0 < x0 -> 0 < x1 -> 0 < y0 -> 0 < y1 ->
       interpolate lbi xs ys x log_log = Ok y0))
  /\ (x = x1 ->
      interpolate lbi xs ys x lin_lin = Ok y1
      /\ (0 < x0 -> 0 < x1 -> interpolate lbi xs ys x lin_log = Ok y1)
      /\ (0 < y0 -> 0 < y1 -> interpolate lbi xs ys x log_lin = Ok y1)
      /\ (0 < x0 -> 0 < x1 -> 0 < y0 -> 0 < y1 ->
          interpolate lbi xs ys x log_log = Ok y1)).
Proof.
  intros Hmax Hx0 Hx1 Hy0 Hy1 Hneq.
  pose proof (bracket_of_reads xs ys (lbi xs x) x0 x1 y0 y1
                Hmax Hx0 Hx1 Hy0 Hy1) as Hb.
  destruct (kernels_at_left_end x0 x1 y0 y1 Hneq) as (L1 & L2 & L3 & L4).
  destruct (kernels_at_right_end x0 x1 y0 y1 Hneq) as (R1 & R2 & R3 & R4).
  unfold interpolate. rewrite Hb. cbn [bind].
  split; intros ->; repeat split; intros; f_equal; auto.
  - apply L2. lra.
  - apply L4. lra.
Qed.

Lemma pointwise_exact_at_bracket_ends_witness :
  interpolate (fun _ _ => 0%Z) [1; 2; 3] [1; 4; 9] 2 lin_lin = Ok 4
  /\ interpolate (fun _ _ => 1%Z) [1; 2; 3] [1; 4; 9] 2 lin_lin = Ok 4.
Proof.
  split.
  - apply (pointwise_exact_at_bracket_ends
             (fun _ _ => 0%Z) [1; 2; 3] [1; 4; 9] 2 1 2 1 4);
      first [reflexivity | unfold INT_MAX; lia | lra].
  - apply (pointwise_exact_at_bracket_ends
             (fun _ _ => 1%Z) [1; 2; 3] [1; 4; 9] 2 2 3 4 9);
      first [reflexivity | unfold INT_MAX; lia | lra].
Defined.
